(** * Videoclipperv3: the segmentation, merge, selection and extraction pipeline

    A shallow embedding of [app.py]:
    - [merge_transcript_segments] over a store of word dictionaries, so that
      the sharing created by [segment.copy()] is visible;
    - [split_audio] and the non-demo path of [transcribe_video] over exact
      rational seconds;
    - [analyze_transcript] over the possible answers of the reasoning service;
    - [patched_resize], the centre crop and the loop of
      [create_vertical_clips] over frame sizes.

    Timestamps are Python numbers.  The merge is stated over an arbitrary
    number type with an addition, and no law of the addition is used unless a
    statement lists it, so what is proved about the merge holds for the
    floating-point addition the program runs as well. *)

From stdpp Require Import gmap strings list fin_maps sorting.
From Stdlib Require Import ZArith QArith Qround Lia Lqa DecimalString DecimalNat Ascii.

Local Open Scope string_scope.

(** ** Exceptions and outcomes *)

(** The Python exceptions that the modelled code can raise. *)
Inductive exn : Type :=
  | IndexError
  | ValueError
  | ZeroDivisionError
  | IOError.

(** A call either returns a value or raises. *)
Inductive result (A : Type) : Type :=
  | Ok (a : A)
  | Raise (e : exn).
Arguments Ok {A} a.
Arguments Raise {A} e.

(** Word dictionaries live in a store and are named by their address. *)
Abbreviation loc := nat.

(** ** merge_transcript_segments *)

Section Merge.

(** The number type of the timestamps, Python's [0] and Python's [+]. *)
Context {num : Type}.
Variable zero : num.
Variable add : num -> num -> num.

(** An entry of a segment's ["words"] list. *)
Record word : Type := Word {
  word_text : string;
  word_start : num;
  word_end : num
}.

(** A segment dictionary.  ["id"] may be absent in the input (the merge
    assigns it); ["words"] is a reference to a list of word dictionaries,
    kept as the list of their addresses. *)
Record segment : Type := Segment {
  seg_id : option Z;
  seg_start : num;
  seg_end : num;
  seg_text : string;
  seg_words : option (list loc)
}.

(** A transcript dictionary; [None] is an absent key, as read by
    [dict.get]. *)
Record transcript : Type := Transcript {
  t_task : option string;
  t_language : option string;
  t_duration : option num;
  t_text : option string;
  t_segments : option (list segment)
}.

(** The empty dictionary [{}]. *)
Definition empty_transcript : transcript :=
  {| t_task := None; t_language := None; t_duration := None;
     t_text := None; t_segments := None |}.

(** [sum(segment_lengths)] and the running [current_offset]: both start
    from [0] and add from the left. *)
Definition py_sum (l : list num) : num := foldl add zero l.

(** [word["start"] += current_offset; word["end"] += current_offset] *)
Definition shift_word (off : num) (w : word) : word :=
  {| word_text := word_text w;
     word_start := add (word_start w) off;
     word_end := add (word_end w) off |}.

(** [for word in new_segment["words"]: ...], writing through the shared
    references. *)
Definition shift_words (off : num) (ws : list loc) (h : gmap loc word)
  : gmap loc word :=
  foldl (fun h l => alter (shift_word off) l h) h ws.

(** The variables of the loop: the ["text"] and ["segments"] entries of
    [merged], the two counters and the store. *)
Record merge_state : Type := MergeState {
  m_text : string;
  m_segments : list segment;
  current_offset : num;
  segment_id : Z;
  m_heap : gmap loc word
}.

(** [new_segment = segment.copy()] with its three assignments; the copy is
    shallow, so [seg_words] is the same reference as in [segment]. *)
Definition new_segment (id : Z) (off : num) (s : segment) : segment :=
  {| seg_id := Some id;
     seg_start := add (seg_start s) off;
     seg_end := add (seg_end s) off;
     seg_text := seg_text s;
     seg_words := seg_words s |}.

(** The body of the inner loop. *)
Definition add_segment (st : merge_state) (s : segment) : merge_state :=
  {| m_text := m_text st;
     m_segments := m_segments st ++ [new_segment (segment_id st) (current_offset st) s];
     current_offset := current_offset st;
     segment_id := (segment_id st + 1)%Z;
     m_heap := match seg_words s with
               | Some ws => shift_words (current_offset st) ws (m_heap st)
               | None => m_heap st
               end |}.

(** [transcript.get("segments", [])] *)
Definition segments_of (t : transcript) : list segment :=
  default [] (t_segments t).

(** The text and segment part of the outer loop body. *)
Definition add_transcript (st : merge_state) (t : transcript) : merge_state :=
  foldl add_segment
    {| m_text := m_text st ++ (default "" (t_text t) ++ " ");
       m_segments := m_segments st;
       current_offset := current_offset st;
       segment_id := segment_id st;
       m_heap := m_heap st |}
    (segments_of t).

(** [for i, transcript in enumerate(transcript_segments)], from index [i];
    [segment_lengths[i]] raises [IndexError] past the end of the list.  The
    state reached is returned in both cases: what was written to the store
    before a raise stays written. *)
Fixpoint merge_loop (segment_lengths : list num) (i : nat)
    (ts : list transcript) (st : merge_state) : option exn * merge_state :=
  match ts with
  | [] => (None, st)
  | t :: ts' =>
      let st1 := add_transcript st t in
      match segment_lengths !! i with
      | None => (Some IndexError, st1)
      | Some d =>
          merge_loop segment_lengths (S i) ts'
            {| m_text := m_text st1;
               m_segments := m_segments st1;
               current_offset := add (current_offset st1) d;
               segment_id := segment_id st1;
               m_heap := m_heap st1 |}
      end
  end.

(** The state of the loop on entry. *)
Definition initial_state (h : gmap loc word) : merge_state :=
  {| m_text := ""; m_segments := []; current_offset := zero;
     segment_id := 0; m_heap := h |}.

(** The function returns its result together with the store it leaves. *)
Definition merge_transcript_segments (transcript_segments : list transcript)
    (segment_lengths : list num) (h : gmap loc word)
  : result transcript * gmap loc word :=
  match transcript_segments with
  | [] => (Ok empty_transcript, h)
  | [t] => (Ok t, h)
  | t0 :: _ =>
      match merge_loop segment_lengths 0 transcript_segments (initial_state h) with
      | (None, st) =>
          (Ok {| t_task := Some (default "transcribe" (t_task t0));
                 t_language := Some (default "english" (t_language t0));
                 t_duration := Some (py_sum segment_lengths);
                 t_text := Some (m_text st);
                 t_segments := Some (m_segments st) |}, m_heap st)
      | (Some e, st) => (Raise e, m_heap st)
      end
  end.

(** *** The result of the loop in closed form

    These functions are not in the program; they say what the loop computes
    and the properties of the merge are read off from them. *)

(** The addresses of the word dictionaries of a list of segments, in the
    order in which the loop visits them. *)
Definition words_of (segs : list segment) : list loc :=
  concat (map (fun s => default [] (seg_words s)) segs).

Definition all_words (ts : list transcript) : list loc :=
  concat (map (fun t => words_of (segments_of t)) ts).

(** The number of segments in the chunks before chunk [i], and in all. *)
Definition segs_before (ts : list transcript) (i : nat) : nat :=
  length (concat (map segments_of (take i ts))).

Definition total_segments (ts : list transcript) : nat :=
  length (concat (map segments_of ts)).

(** The segments one chunk appends, numbered from [id]. *)
Definition renumber (id : Z) (off : num) (segs : list segment) : list segment :=
  imap (fun j s => new_segment (id + Z.of_nat j) off s) segs.

(** The segments, the store and the text after the chunks [ts] with the
    window lengths [ds], starting from counter [id] and offset [off]. *)
Fixpoint loop_segments (id : Z) (off : num) (ds : list num)
    (ts : list transcript) {struct ts} : list segment :=
  match ts, ds with
  | t :: ts', d :: ds' =>
      renumber id off (segments_of t)
        ++ loop_segments (id + Z.of_nat (length (segments_of t))) (add off d) ds' ts'
  | _, _ => []
  end.

Fixpoint loop_heap (off : num) (ds : list num) (ts : list transcript)
    (h : gmap loc word) {struct ts} : gmap loc word :=
  match ts, ds with
  | t :: ts', d :: ds' =>
      loop_heap (add off d) ds' ts' (shift_words off (words_of (segments_of t)) h)
  | _, _ => h
  end.

Definition loop_text (s : string) (ts : list transcript) : string :=
  foldl (fun acc t => acc ++ (default "" (t_text t) ++ " ")) s ts.

(** The offset of chunk [i]: [sum(segment_lengths[:i])]. *)
Definition offset_of (segment_lengths : list num) (i : nat) : num :=
  py_sum (take i segment_lengths).

End Merge.

(** ** split_audio and transcribe_video *)

(** What [VideoFileClip(input_file)] gives the program: the duration in
    seconds and the frame size, and what the environment does with the
    files written from it: [v_audio] says whether the asset has an audio
    track and [write_audiofile] on it succeeds, and [v_write_videofile i]
    whether writing the output file number [i] succeeds.  An input file that
    cannot be opened is [None]. *)
Record video : Type := Video {
  v_duration : Q;
  v_w : Z;
  v_h : Z;
  v_audio : bool;
  v_write_videofile : nat -> bool
}.

(** Python's [min(a, b)]: [b] when [b < a], else [a]. *)
Definition py_min (a b : Q) : Q :=
  if Qle_bool a b then a else b.

(** [a < b] on numbers. *)
Definition Qlt_bool (a b : Q) : bool := negb (Qle_bool b a).

(** [clip.subclip(t_start, t_end)] of the video library on a clip of the
    given duration, as the window it selects: a negative time counts from
    the end, and a start after the end of the clip raises [ValueError]. *)
Definition subclip (duration t_start t_end : Q) : result (Q * Q) :=
  let t_start' := if Qlt_bool t_start 0 then (duration + t_start)%Q else t_start in
  if Qlt_bool duration t_start' then Raise ValueError
  else
    let t_end' := if Qlt_bool t_end 0 then (duration + t_end)%Q else t_end in
    Ok (t_start', t_end').

(** [f"temp_audio_segment_{i}.mp3"] *)
Definition segment_file (i : nat) : string :=
  "temp_audio_segment_" ++ NilZero.string_of_uint (Nat.to_uint i) ++ ".mp3".

(** The body of the loop of [split_audio] for window [i]: the sub-clip is
    taken, its audio is written, and the name of the file is the result. *)
Definition write_segment (v : video) (segment_length : Z) (i : nat) : result string :=
  let start_time := inject_Z (Z.of_nat i * segment_length) in
  let end_time := py_min (inject_Z ((Z.of_nat i + 1) * segment_length)) (v_duration v) in
  match subclip (v_duration v) start_time end_time with
  | Raise e => Raise e
  | Ok _ => if v_audio v then Ok (segment_file i) else Raise IOError
  end.

(** [for i in range(num_segments)], over the indices left, with the list
    [temp_files] built so far. *)
Fixpoint split_loop (v : video) (segment_length : Z) (indices : list nat)
    (temp_files : list string) : result (list string) :=
  match indices with
  | [] => Ok temp_files
  | i :: rest =>
      match write_segment v segment_length i with
      | Raise e => Raise e
      | Ok temp_file => split_loop v segment_length rest (temp_files ++ [temp_file])
      end
  end.

(** The body of the [try] of [split_audio].  [duration / segment_length]
    divides a Python float by a Python int and raises on zero;
    [range(num_segments)] is empty for a number that is not positive. *)
Definition split_audio_try (input_file : option video) (segment_length : Z)
  : result (list string) :=
  match input_file with
  | None => Raise IOError
  | Some v =>
      let duration := v_duration v in
      if Qle_bool duration (inject_Z segment_length) then
        if v_audio v then Ok ["temp_audio_full.mp3"] else Raise IOError
      else if (segment_length =? 0)%Z then Raise ZeroDivisionError
      else
        let num_segments := Qceiling (duration / inject_Z segment_length) in
        split_loop v segment_length (seq 0 (Z.to_nat num_segments)) []
  end.

(** [except Exception: return []] *)
Definition split_audio (input_file : option video) (segment_length : Z)
  : list string :=
  match split_audio_try input_file segment_length with
  | Ok temp_files => temp_files
  | Raise _ => []
  end.

(** The list [segment_durations] built by [transcribe_video], one entry for
    each of the [n] audio files, with [segment_length = 15 * 60]. *)
Definition segment_durations (total_duration : Q) (n : nat) : list Q :=
  map (fun i : nat =>
         let start_time := inject_Z (Z.of_nat i * 900) in
         let end_time := py_min (inject_Z ((Z.of_nat i + 1) * 900)) total_duration in
         (end_time - start_time)%Q)
      (seq 0 n).

(** The transcription loop: [service i] is what the transcription service
    answers for audio file [i], [None] when the call raises.  Only the
    answers that arrived are appended. *)
Definition transcribe_segments (service : nat -> option (@transcript Q))
    (n : nat) : list (@transcript Q) :=
  omap service (seq 0 n).

(** [transcribe_video] with [DEMO_MODE] false.  [None] is Python's [None].
    The dictionaries of the service's answers are in the store [h]. *)
Definition transcribe_video (input_file : option video)
    (service : nat -> option (@transcript Q)) (h : gmap loc (@word Q))
  : option (@transcript Q) * gmap loc (@word Q) :=
  match split_audio input_file (15 * 60) with
  | [] => (None, h)
  | audio_segments =>
      match input_file with
      | None => (None, h)
      | Some v =>
          let n := length audio_segments in
          let durations := segment_durations (v_duration v) n in
          match transcribe_segments service n with
          | [] => (None, h)
          | transcript_segments =>
              match merge_transcript_segments 0%Q Qplus
                      transcript_segments durations h with
              | (Ok merged, h') => (Some merged, h')
              | (Raise _, h') => (None, h')
              end
          end
      end
  end.

(** ** analyze_transcript *)

(** The ["analysis"] object of a clip. *)
Record analysis : Type := Analysis {
  animal_facts : list string;
  context_and_setup : string;
  emotional_engagement : string;
  follow_up : string;
  educational_entertainment_balance : string
}.

(** One element of the ["clips"] array. *)
Record clip_info : Type := ClipInfo {
  timecodes : list Q;
  description : string;
  entertainment_score : Z;
  educational_score : Z;
  clarity_score : Z;
  shareability_score : Z;
  length_score : Z;
  clip_analysis : analysis;
  text_hook : string
}.

(** [json.loads(content)] and the test ['clips' in viral_clips]. *)
Inductive parsed_content : Type :=
  | JSONDecodeError
  | NoClipsKey
  | Clips (clips : list clip_info).

(** What the call to the reasoning service does: it raises, or it returns a
    response without choices, or one whose first choice has a content. *)
Inductive chat_response : Type :=
  | ServiceError
  | NoChoices
  | Content (content : parsed_content).

(** The list returned in demo mode. *)
Definition mock_clips : list clip_info :=
  [ {| timecodes := [16; 25]%Q;
       description := "This segment features the fascinating poison dart frog, showcasing its surprising toxicity. The Kratt brothers' enthusiastic explanation and animated visuals make this fact engaging for viewers of all ages. The vibrant colors of the frog combined with the amazing fact about its poison potency creates a perfect mix of visual appeal and educational value.";
       entertainment_score := 9;
       educational_score := 10;
       clarity_score := 9;
       shareability_score := 10;
       length_score := 10;
       clip_analysis :=
         {| animal_facts :=
              [ "Poison dart frogs contain enough toxin to take down ten adult humans";
                "These frogs are among the most toxic animals on Earth";
                "Their bright colors warn predators of their toxicity" ];
            context_and_setup := "The clip begins with Chris asking a provocative question that immediately hooks the viewer's interest, creating curiosity about what makes this tiny frog so special.";
            emotional_engagement := "Martin's exaggerated reaction of surprise and disbelief creates an emotional response that helps viewers understand the significance of this fact. The brothers' enthusiasm is contagious.";
            follow_up := "After revealing the main fact, they explain how these frogs use this defense mechanism in the wild, providing important ecological context.";
            educational_entertainment_balance := "This clip perfectly balances the shocking fact about the frog's toxicity with the brothers' entertaining reactions, making the educational content highly engaging." |};
       text_hook := "This tiny frog could take down 10 grown men! 🐸☠️" |} ].

(** [analyze_transcript]: the transcript only goes into the prompt, so the
    function is given the service's answer.  Every path that does not return
    the ["clips"] array falls through to [return []]. *)
Definition analyze_transcript (DEMO_MODE : bool) (response : chat_response)
  : list clip_info :=
  if DEMO_MODE then mock_clips
  else
    match response with
    | Content (Clips clips) => clips
    | _ => []
    end.

(** [end - start] of a candidate with two timecodes. *)
Definition clip_duration (c : clip_info) : option Q :=
  match timecodes c with
  | [start_time; end_time] => Some (end_time - start_time)%Q
  | _ => None
  end.

(** The length-score table as the specification words it, for comparison
    with what the program returns: [30,90] gives 10, [20,30) and (90,100]
    give 8, [10,20) and (100,110] give 6, [0,10) and (110,120] give 4, and
    above 120 gives 2.  The table has no row for a negative duration; the
    last branch takes it. *)
Definition spec_length_score (d : Q) : Z :=
  if Qle_bool 30 d && Qle_bool d 90 then 10
  else if (Qle_bool 20 d && Qle_bool d 30) || (Qle_bool 90 d && Qle_bool d 100) then 8
  else if (Qle_bool 10 d && Qle_bool d 20) || (Qle_bool 100 d && Qle_bool d 110) then 6
  else if (Qle_bool 0 d && Qle_bool d 10) || (Qle_bool 110 d && Qle_bool d 120) then 4
  else 2.

(** ** create_vertical_clips *)

(** Python's [int(x)] on a number: truncation toward zero. *)
Definition py_int (x : Q) : Z := Z.quot (Qnum x) (Zpos (Qden x)).

(** [patched_resize], reduced to the size of the clip it returns.  [clip] is
    [(clip.w, clip.h)]; the three optional arguments are as in the source.
    [int(clip.w * height / clip.h)] divides two integers and truncates, and
    raises when [clip.h] is zero. *)
Definition patched_resize (clip : Z * Z) (newsize : option (Z * Z))
    (height width : option Z) : result (Z * Z) :=
  match height, width with
  | Some hh, Some ww => Ok (ww, hh)
  | Some hh, None =>
      if (clip.2 =? 0)%Z then Raise ZeroDivisionError
      else Ok (Z.quot (clip.1 * hh) clip.2, hh)
  | None, Some ww =>
      if (clip.1 =? 0)%Z then Raise ZeroDivisionError
      else Ok (ww, Z.quot (clip.2 * ww) clip.1)
  | None, None =>
      match newsize with
      | Some s => Ok s
      | None => Ok clip
      end
  end.

(** The bound [i] of a slice [a[i:j]] on an axis of length [n], as Python and
    numpy normalise it: a negative bound counts from the end, and the result
    is clipped to [0..n]. *)
Definition slice_bound (n i : Z) : Z :=
  if (i <? 0)%Z then Z.max 0 (i + n) else Z.min i n.

(** The number of entries that [a[i:j]] selects. *)
Definition slice_length (n i j : Z) : Z :=
  Z.max 0 (slice_bound n j - slice_bound n i).

(** The [crop] effect of the video library, called as
    [clip.crop(x_center=..., width=...)], reduced to the size of its result.
    The library computes [x1, x2 = x_center - width / 2, x_center + width / 2]
    when [x_center] is not zero, replaces a zero or missing bound by [0] and
    by the clip's width, leaves the rows alone, and slices every frame as
    [pic[int(y1):int(y2), int(x1):int(x2)]]. *)
Definition crop (clip : Z * Z) (x_center : Q) (width : Z) : Z * Z :=
  let x1 : Q :=
    if Qeq_bool x_center 0 then 0
    else x_center - inject_Z width / 2 in
  let x2 : Q :=
    if Qeq_bool x_center 0 then inject_Z clip.1
    else if Qeq_bool (x_center + inject_Z width / 2) 0 then inject_Z clip.1
    else x_center + inject_Z width / 2 in
  (slice_length clip.1 (py_int x1) (py_int x2),
   slice_length clip.2 0 clip.2).

(** The two reprojection steps of the loop body, on a frame size:
    [segment.resize(height=1920)], then
    [crop(x_center=vertical_segment.w/2, width=1080)]. *)
Definition reproject (size : Z * Z) : result (Z * Z) :=
  match patched_resize size None (Some 1920%Z) None with
  | Raise e => Raise e
  | Ok vertical_segment =>
      Ok (crop vertical_segment (inject_Z vertical_segment.1 / 2) 1080)
  end.

(** A file written into the output folder: the copy made in demo mode, or a
    vertical clip with its source window and frame size.  [i] is the number
    in the file name [viral_clip_{i}]. *)
Inductive written_file : Type :=
  | DemoCopy (i : nat)
  | VerticalClip (i : nat) (start_time end_time : Q) (size : Z * Z).

(** The body of the loop of the non-demo path for candidate number [i].
    [start, end = clip_info['timecodes']] raises [ValueError] unless the list
    has exactly two entries; then the sub-clip is taken, reprojected and
    written.  The clip is recorded with the two timecodes handed to
    [subclip]. *)
Definition make_clip (v : video) (i : nat) (c : clip_info) : result written_file :=
  match timecodes c with
  | [start_time; end_time] =>
      match subclip (v_duration v) start_time end_time with
      | Raise e => Raise e
      | Ok _ =>
          match reproject (v_w v, v_h v) with
          | Raise e => Raise e
          | Ok size =>
              if v_write_videofile v i then Ok (VerticalClip i start_time end_time size)
              else Raise IOError
          end
      end
  | _ => Raise ValueError
  end.

(** [for i, clip_info in enumerate(viral_clips, 1)], from number [i]: the
    files written so far, and the exception that left the loop, if any.
    Nothing inside the loop catches an exception. *)
Fixpoint clips_loop (v : video) (i : nat) (viral_clips : list clip_info)
    (written : list written_file) : list written_file * option exn :=
  match viral_clips with
  | [] => (written, None)
  | c :: rest =>
      match make_clip v i c with
      | Ok f => clips_loop v (S i) rest (written ++ [f])
      | Raise e => (written, Some e)
      end
  end.

(** The loop of the demo path, from number [i]: each candidate gets a copy
    of the input file, and the first copy that fails ends the loop. *)
Fixpoint demo_loop (v : video) (i : nat) (viral_clips : list clip_info)
    (written : list written_file) : list written_file :=
  match viral_clips with
  | [] => written
  | _ :: rest =>
      if v_write_videofile v i then demo_loop v (S i) rest (written ++ [DemoCopy i])
      else written
  end.

(** [create_vertical_clips], as the list of files it has written when it
    returns.  Both paths wrap their whole loop in one [try]; the handler
    logs and the function returns. *)
Definition create_vertical_clips (DEMO_MODE : bool) (input_file : option video)
    (viral_clips : list clip_info) : list written_file :=
  match input_file with
  | None => []
  | Some v =>
      if DEMO_MODE then demo_loop v 1 viral_clips []
      else (clips_loop v 1 viral_clips []).1
  end.

(** ** Concrete data for the scenarios *)

(** The two-window scenario: a 1200 s asset in windows of 900 s and 300 s;
    chunk 0 has a segment from 10 to 20, chunk 1 a segment from 5 to 15, each
    with one word dictionary in the store. *)
Definition chunk0 : @transcript Q :=
  {| t_task := Some "transcribe"; t_language := Some "english";
     t_duration := Some 900%Q; t_text := Some "first window";
     t_segments := Some [ {| seg_id := Some 0%Z; seg_start := 10%Q; seg_end := 20%Q;
                             seg_text := "first window"; seg_words := Some [0%nat] |} ] |}.

Definition chunk1 : @transcript Q :=
  {| t_task := Some "transcribe"; t_language := Some "english";
     t_duration := Some 300%Q; t_text := Some "second window";
     t_segments := Some [ {| seg_id := Some 0%Z; seg_start := 5%Q; seg_end := 15%Q;
                             seg_text := "second window"; seg_words := Some [1%nat] |} ] |}.

Definition scenario_heap : gmap loc (@word Q) :=
  <[0%nat := {| word_text := "first"; word_start := 10%Q; word_end := 11%Q |}]>
    (<[1%nat := {| word_text := "second"; word_start := 5%Q; word_end := 6%Q |}]> ∅).

(** A single chunk whose only segment carries the id 7. *)
Definition chunk_id7 : @transcript Q :=
  {| t_task := None; t_language := None; t_duration := None; t_text := Some "late";
     t_segments := Some [ {| seg_id := Some 7%Z; seg_start := 1%Q; seg_end := 2%Q;
                             seg_text := "late"; seg_words := None |} ] |}.

(** The 1200 s asset and a 2000 s asset (windows of 900, 900 and 200 s). *)
Definition asset_1200 : video :=
  {| v_duration := 1200; v_w := 1920; v_h := 1080;
     v_audio := true; v_write_videofile := fun _ => true |}.
Definition asset_2000 : video :=
  {| v_duration := 2000; v_w := 1920; v_h := 1080;
     v_audio := true; v_write_videofile := fun _ => true |}.

(** A 10 s asset. *)
Definition asset_10 : video :=
  {| v_duration := 10; v_w := 1920; v_h := 1080;
     v_audio := true; v_write_videofile := fun _ => true |}.

(** The transcription service failing on window 0 and answering [chunk1] on
    window 1. *)
Definition service_first_fails (i : nat) : option (@transcript Q) :=
  match i with
  | 1%nat => Some chunk1
  | _ => None
  end.

(** The transcription service answering [chunk0] on window 0, failing on
    window 1 and answering [chunk1] on window 2. *)
Definition service_middle_fails (i : nat) : option (@transcript Q) :=
  match i with
  | 0%nat => Some chunk0
  | 2%nat => Some chunk1
  | _ => None
  end.

(** The transcription service answering on every window: [chunk0] on
    window 0 and [chunk1] on the others. *)
Definition service_all_windows (i : nat) : option (@transcript Q) :=
  match i with
  | 0%nat => Some chunk0
  | _ => Some chunk1
  end.

(** A candidate with the given timecodes and length score. *)
Definition candidate (tc : list Q) (score : Z) : clip_info :=
  {| timecodes := tc; description := "candidate";
     entertainment_score := 8; educational_score := 9; clarity_score := 9;
     shareability_score := 8; length_score := score;
     clip_analysis := {| animal_facts := []; context_and_setup := "";
                         emotional_engagement := ""; follow_up := "";
                         educational_entertainment_balance := "" |};
     text_hook := "hook" |}.

(** A vertical source frame of 480 by 1280, whose scaled width is 720. *)
Definition narrow_asset : video :=
  {| v_duration := 120; v_w := 480; v_h := 1280;
     v_audio := true; v_write_videofile := fun _ => true |}.

(** ** process_video and process_folder *)

(** The number [i] in the name [viral_clip_{i}] of a written file. *)
Definition file_number (f : written_file) : nat :=
  match f with
  | DemoCopy i => i
  | VerticalClip i _ _ _ => i
  end.

(** Python's truth value of a transcript dictionary: [{}] is false. *)
Definition transcript_truthy (t : @transcript Q) : bool :=
  match t_task t, t_language t, t_duration t, t_text t, t_segments t with
  | None, None, None, None, None => false
  | _, _, _, _, _ => true
  end.

(** What [process_video] leaves in the output folder: the clips, and the
    candidates written by [save_metadata] when it is reached. *)
Record pipeline_output : Type := PipelineOutput {
  clips_written : list written_file;
  metadata_saved : option (list clip_info)
}.

Definition no_output : pipeline_output :=
  {| clips_written := []; metadata_saved := None |}.

(** [process_video] with [DEMO_MODE] false.  [reasoning] is the answer of the
    reasoning service to the prompt built from a transcript. *)
Definition process_video (input_file : option video)
    (service : nat -> option (@transcript Q))
    (reasoning : @transcript Q -> chat_response) (h : gmap loc (@word Q))
  : pipeline_output * gmap loc (@word Q) :=
  match transcribe_video input_file service h with
  | (None, h') => (no_output, h')
  | (Some transcription, h') =>
      if transcript_truthy transcription then
        match analyze_transcript false (reasoning transcription) with
        | [] => (no_output, h')
        | viral_clips =>
            ({| clips_written := create_vertical_clips false input_file viral_clips;
                metadata_saved := Some viral_clips |}, h')
        end
      else (no_output, h')
  end.

(** [str.lower] on one character of a file name.  Only the letters A to Z
    matter for the test below: no other character lowers to a character of
    [.mov] or [.mp4]. *)
Definition lower_ascii (c : Ascii.ascii) : Ascii.ascii :=
  let n := Ascii.nat_of_ascii c in
  if ((65 <=? n)%nat && (n <=? 90)%nat)%bool then Ascii.ascii_of_nat (n + 32) else c.

Fixpoint py_lower (s : string) : string :=
  match s with
  | EmptyString => EmptyString
  | String c s' => String (lower_ascii c) (py_lower s')
  end.

(** [s.endswith(suffix)] *)
Fixpoint endswith (s suffix : string) : bool :=
  if String.eqb s suffix then true
  else match s with
       | EmptyString => false
       | String _ s' => endswith s' suffix
       end.

(** [filename.lower().endswith(('.mov', '.mp4'))] *)
Definition is_video_name (filename : string) : bool :=
  (endswith (py_lower filename) ".mov" || endswith (py_lower filename) ".mp4")%bool.

(** The input path of [process_folder]: a file, or a folder with the names
    that [os.listdir] returns. *)
Inductive input_path : Type :=
  | IsFile (name : string)
  | IsFolder (files : list string).

(** [process_folder], as the names it hands to [process_video], in order. *)
Definition process_folder (input : input_path) : list string :=
  match input with
  | IsFile name => [name]
  | IsFolder files => List.filter is_video_name files
  end.

(** * Properties *)

Local Close Scope Q_scope.
Local Open Scope Z_scope.
Local Open Scope list_scope.

(** ** The merge loop *)

Section MergeFacts.

Context {num : Type}.
Variable zero : num.
Variable add : num -> num -> num.

Implicit Types (st : @merge_state num) (h : gmap loc (@word num)).
Implicit Types (ts : list (@transcript num)) (segs : list (@segment num)).

Lemma shift_words_app off (a b : list loc) h :
  shift_words add off (a ++ b) h = shift_words add off b (shift_words add off a h).
Proof. unfold shift_words. apply foldl_app. Qed.

Lemma shift_words_notin off (ws : list loc) h (l : loc) :
  l ∉ ws -> shift_words add off ws h !! l = h !! l.
Proof.
  revert h. induction ws as [|a ws IH]; intros h Hl; [done|].
  apply not_elem_of_cons in Hl as [Hne Hl]. cbn.
  change (shift_words add off ws (alter (shift_word add off) a h) !! l = h !! l).
  rewrite IH by done. by apply lookup_alter_ne.
Qed.

Lemma shift_words_in off (ws : list loc) h (l : loc) :
  NoDup ws -> l ∈ ws ->
  shift_words add off ws h !! l = shift_word add off <$> h !! l.
Proof.
  revert h. induction ws as [|a ws IH]; intros h Hnd Hl.
  - by apply elem_of_nil in Hl.
  - apply NoDup_cons in Hnd as [Ha Hnd]. cbn.
    change (shift_words add off ws (alter (shift_word add off) a h) !! l
            = shift_word add off <$> h !! l).
    destruct (decide (l = a)) as [->|Hne].
    + rewrite shift_words_notin by done. apply lookup_alter_eq.
    + apply elem_of_cons in Hl as [?|Hl]; [done|].
      rewrite IH by done. by rewrite lookup_alter_ne.
Qed.

Lemma renumber_cons id off (s : @segment num) segs :
  renumber add id off (s :: segs)
  = new_segment add id off s :: renumber add (id + 1) off segs.
Proof.
  unfold renumber. cbn. f_equal; [by rewrite Z.add_0_r|].
  apply imap_ext. intros j x _. cbn. f_equal. lia.
Qed.

Lemma words_of_cons (s : @segment num) segs :
  words_of (s :: segs) = default [] (seg_words s) ++ words_of segs.
Proof. reflexivity. Qed.

(** The inner loop in closed form. *)
Lemma foldl_add_segment segs : forall st,
  foldl (add_segment add) st segs
  = {| m_text := m_text st;
       m_segments := m_segments st ++ renumber add (segment_id st) (current_offset st) segs;
       current_offset := current_offset st;
       segment_id := segment_id st + Z.of_nat (length segs);
       m_heap := shift_words add (current_offset st) (words_of segs) (m_heap st) |}.
Proof.
  induction segs as [|s segs IH]; intros st.
  - destruct st; cbn. by rewrite app_nil_r, Z.add_0_r.
  - cbn [foldl]. rewrite IH. cbn [add_segment m_text m_segments current_offset segment_id m_heap].
    rewrite renumber_cons, words_of_cons, shift_words_app, <- app_assoc. cbn [app length].
    f_equal; [lia|]. by destruct (seg_words s).
Qed.

Lemma add_transcript_closed st (t : @transcript num) :
  add_transcript add st t
  = {| m_text := m_text st ++ (default "" (t_text t) ++ " ");
       m_segments := m_segments st
                       ++ renumber add (segment_id st) (current_offset st) (segments_of t);
       current_offset := current_offset st;
       segment_id := segment_id st + Z.of_nat (length (segments_of t));
       m_heap := shift_words add (current_offset st) (words_of (segments_of t)) (m_heap st) |}.
Proof. unfold add_transcript. by rewrite foldl_add_segment. Qed.

Lemma total_segments_cons (t : @transcript num) ts :
  total_segments (t :: ts) = (length (segments_of t) + total_segments ts)%nat.
Proof. unfold total_segments. cbn. by rewrite length_app. Qed.

(** The outer loop in closed form, when there is a window length for every
    chunk. *)
Lemma merge_loop_closed (lens : list num) ts : forall i st,
  (length ts <= length (drop i lens))%nat ->
  merge_loop add lens i ts st
  = (None,
     {| m_text := loop_text (m_text st) ts;
        m_segments := m_segments st
                        ++ loop_segments add (segment_id st) (current_offset st) (drop i lens) ts;
        current_offset := foldl add (current_offset st) (take (length ts) (drop i lens));
        segment_id := segment_id st + Z.of_nat (total_segments ts);
        m_heap := loop_heap add (current_offset st) (drop i lens) ts (m_heap st) |}).
Proof.
  induction ts as [|t ts IH]; intros i st Hlen.
  - destruct st; cbn. by rewrite app_nil_r, Z.add_0_r.
  - destruct (lens !! i) as [d|] eqn:Hd.
    2:{ apply lookup_ge_None in Hd. rewrite length_drop in Hlen. cbn in Hlen. lia. }
    rewrite (drop_S _ _ _ Hd) in *. cbn in Hlen.
    cbn [merge_loop]. rewrite Hd, IH by lia.
    rewrite add_transcript_closed, total_segments_cons.
    cbn [m_text m_segments current_offset segment_id m_heap
         loop_text loop_segments loop_heap foldl length take].
    rewrite <- app_assoc. do 2 f_equal. lia.
Qed.


Lemma segs_before_0 ts : segs_before ts 0 = 0%nat.
Proof. reflexivity. Qed.

Lemma segs_before_S (t : @transcript num) ts k :
  segs_before (t :: ts) (S k) = (length (segments_of t) + segs_before ts k)%nat.
Proof. unfold segs_before. cbn. by rewrite length_app. Qed.

Lemma length_renumber id off segs : length (renumber add id off segs) = length segs.
Proof. apply length_imap. Qed.

(** Where the segment [j] of chunk [k] lands, and with which offset. *)
Lemma loop_segments_lookup ts : forall (ds : list num) id off k c j s,
  (length ts <= length ds)%nat ->
  ts !! k = Some c -> segments_of c !! j = Some s ->
  loop_segments add id off ds ts !! (segs_before ts k + j)%nat
  = Some (new_segment add (id + Z.of_nat (segs_before ts k + j))
            (foldl add off (take k ds)) s).
Proof.
  induction ts as [|t ts IH]; intros ds id off k c j s Hlen Hk Hj; [done|].
  destruct ds as [|d ds]; [cbn in Hlen; lia|]. cbn in Hlen.
  cbn [loop_segments]. destruct k as [|k].
  - injection Hk as ->. rewrite segs_before_0. cbn [Nat.add take foldl].
    rewrite lookup_app_l by (rewrite length_renumber; by eapply lookup_lt_Some).
    unfold renumber. rewrite list_lookup_imap, Hj. reflexivity.
  - cbn in Hk. rewrite segs_before_S, <- Nat.add_assoc.
    rewrite lookup_app_r by (rewrite length_renumber; lia).
    rewrite length_renumber.
    replace (length (segments_of t) + (segs_before ts k + j) - length (segments_of t))%nat
      with (segs_before ts k + j)%nat by lia.
    rewrite (IH ds _ _ k c j s) by (done || lia).
    cbn [take foldl]. do 2 f_equal. lia.
Qed.

Lemma length_loop_segments ts : forall (ds : list num) id off,
  (length ts <= length ds)%nat ->
  length (loop_segments add id off ds ts) = total_segments ts.
Proof.
  induction ts as [|t ts IH]; intros ds id off Hlen; [done|].
  destruct ds as [|d ds]; [cbn in Hlen; lia|]. cbn in Hlen.
  cbn [loop_segments]. rewrite length_app, length_renumber, total_segments_cons.
  rewrite IH by lia. reflexivity.
Qed.

Lemma renumber_ids id off segs :
  seg_id <$> renumber add id off segs
  = (fun k : nat => Some (id + Z.of_nat k)) <$> seq 0 (length segs).
Proof.
  revert id. induction segs as [|s segs IH]; intros id; [done|].
  rewrite renumber_cons. cbn [fmap list_fmap length seq new_segment seg_id].
  rewrite Z.add_0_r. f_equal. fold (@fmap list _ _ _ (@seg_id num)).
  rewrite IH, <- fmap_S_seq, <- list_fmap_compose.
  apply list_fmap_ext. intros _ k _. cbn. f_equal. lia.
Qed.

(** The loop numbers what it appends consecutively from [id]. *)
Lemma loop_segments_ids ts : forall (ds : list num) id off,
  (length ts <= length ds)%nat ->
  seg_id <$> loop_segments add id off ds ts
  = (fun k : nat => Some (id + Z.of_nat k)) <$> seq 0 (total_segments ts).
Proof.
  induction ts as [|t ts IH]; intros ds id off Hlen; [done|].
  destruct ds as [|d ds]; [cbn in Hlen; lia|]. cbn in Hlen.
  cbn [loop_segments]. rewrite fmap_app, renumber_ids, IH by lia.
  rewrite total_segments_cons, seq_app, fmap_app. f_equal.
  cbn [Nat.add].
  replace (seq (length (segments_of t)) (total_segments ts))
    with (Nat.add (length (segments_of t)) <$> seq 0 (total_segments ts))
    by (by rewrite fmap_add_seq, Nat.add_0_r).
  rewrite <- list_fmap_compose.
  apply list_fmap_ext. intros _ k _. cbn. f_equal. lia.
Qed.

Lemma all_words_cons (t : @transcript num) ts :
  all_words (t :: ts) = words_of (segments_of t) ++ all_words ts.
Proof. reflexivity. Qed.

Lemma elem_of_all_words ts : forall k c (l : loc),
  ts !! k = Some c -> l ∈ words_of (segments_of c) -> l ∈ all_words ts.
Proof.
  induction ts as [|t ts IH]; intros k c l Hk Hl; [done|].
  rewrite all_words_cons. apply elem_of_app. destruct k as [|k].
  - injection Hk as ->. by left.
  - right. by apply (IH k c).
Qed.

(** The loop leaves alone every word it does not reach. *)
Lemma loop_heap_notin ts : forall (ds : list num) off h (l : loc),
  l ∉ all_words ts -> loop_heap add off ds ts h !! l = h !! l.
Proof.
  induction ts as [|t ts IH]; intros ds off h l Hl; [done|].
  destruct ds as [|d ds]; [done|].
  rewrite all_words_cons in Hl. apply not_elem_of_app in Hl as [Hl1 Hl2].
  cbn [loop_heap]. rewrite IH by done. by apply shift_words_notin.
Qed.

(** A word of chunk [k] is shifted, once, by the offset of chunk [k]. *)
Lemma loop_heap_in ts : forall (ds : list num) off h k c (l : loc),
  (length ts <= length ds)%nat ->
  NoDup (all_words ts) ->
  ts !! k = Some c -> l ∈ words_of (segments_of c) ->
  loop_heap add off ds ts h !! l
  = shift_word add (foldl add off (take k ds)) <$> h !! l.
Proof.
  induction ts as [|t ts IH]; intros ds off h k c l Hlen Hnd Hk Hl; [done|].
  destruct ds as [|d ds]; [cbn in Hlen; lia|]. cbn in Hlen.
  rewrite all_words_cons in Hnd. apply NoDup_app in Hnd as (Hnd1 & Hdisj & Hnd2).
  cbn [loop_heap]. destruct k as [|k].
  - injection Hk as ->. cbn [take foldl].
    rewrite loop_heap_notin by (by apply Hdisj).
    by apply shift_words_in.
  - cbn in Hk. rewrite (IH ds _ _ k c l) by (done || lia).
    cbn [take foldl]. f_equal. apply shift_words_notin.
    intros Hin. apply (Hdisj _ Hin). by apply (elem_of_all_words ts k c).
Qed.


Lemma elem_of_words_of segs (s : @segment num) (l : loc) :
  s ∈ segs -> l ∈ default [] (seg_words s) -> l ∈ words_of segs.
Proof.
  induction segs as [|x segs IH]; intros Hs Hl; [by apply elem_of_nil in Hs|].
  rewrite words_of_cons. apply elem_of_app.
  apply elem_of_cons in Hs as [->|Hs]; [by left|right; by apply IH].
Qed.

Lemma segments_of_some a b c d segs :
  segments_of (@Transcript num a b c d (Some segs)) = segs.
Proof. reflexivity. Qed.

(** The function on two chunks or more, when every chunk has a window
    length: it returns, and its result and store are the closed forms. *)
Lemma merge_closed (t0 t1 : @transcript num) rest (lens : list num) h :
  (length (t0 :: t1 :: rest) <= length lens)%nat ->
  merge_transcript_segments zero add (t0 :: t1 :: rest) lens h
  = (Ok {| t_task := Some (default "transcribe" (t_task t0));
           t_language := Some (default "english" (t_language t0));
           t_duration := Some (py_sum zero add lens);
           t_text := Some (loop_text "" (t0 :: t1 :: rest));
           t_segments := Some (loop_segments add 0 zero lens (t0 :: t1 :: rest)) |},
     loop_heap add zero lens (t0 :: t1 :: rest) h).
Proof.
  intros Hlen. unfold merge_transcript_segments.
  rewrite merge_loop_closed by (by rewrite drop_0).
  by rewrite drop_0.
Qed.

(** C8.  Merging no chunk returns the empty dictionary, and merging a
    single chunk returns that chunk as it is, whatever window lengths are
    passed; in both cases the store is untouched. *)
Theorem merge_small_identity (lens : list num) h :
  merge_transcript_segments zero add [] lens h = (Ok empty_transcript, h)
  /\ forall c, merge_transcript_segments zero add [c] lens h = (Ok c, h).
Proof. split; [reflexivity | intros c; reflexivity]. Qed.

(** C7, amended.  For two chunks or more, each with a window length, the
    merge returns and the ids of its segments are exactly 0, 1, ..., N-1 in
    order, where N is the total number of input segments, whatever ids the
    input segments carry. *)
Theorem merge_ids_contiguous ts (lens : list num) h :
  (2 <= length ts)%nat -> (length ts <= length lens)%nat ->
  exists merged h',
    merge_transcript_segments zero add ts lens h = (Ok merged, h')
    /\ length (segments_of merged) = total_segments ts
    /\ seg_id <$> segments_of merged
       = (fun k : nat => Some (Z.of_nat k)) <$> seq 0 (total_segments ts).
Proof.
  intros H2 Hlen. destruct ts as [|t0 [|t1 rest]]; [cbn in H2; lia..|].
  eexists _, _. split; [by apply merge_closed|].
  rewrite !segments_of_some. split.
  - by apply length_loop_segments.
  - rewrite loop_segments_ids by done. reflexivity.
Qed.

(** C2.  With a window length for every chunk, the merge returns, and the
    segment [j] of chunk [i] appears in the result (after the segments of
    the chunks before it) with its start and end increased by exactly the
    sum of the window lengths before [i]; its text and its word list are
    kept, and every word stamp in that list has its text kept and its
    start and end increased by the same amount.  The word dictionaries of
    the input are pairwise distinct objects.  The only law used is
    [x + 0 = x], for the single chunk that is returned as it is. *)
Theorem merge_shifts_by_preceding_windows
    (add_zero_r : forall x, add x zero = x) ts (lens : list num) h :
  length lens = length ts ->
  NoDup (all_words ts) ->
  exists merged h',
    merge_transcript_segments zero add ts lens h = (Ok merged, h')
    /\ forall i c j s,
         ts !! i = Some c -> segments_of c !! j = Some s ->
         exists s',
           segments_of merged !! (segs_before ts i + j)%nat = Some s'
           /\ seg_start s' = add (seg_start s) (offset_of zero add lens i)
           /\ seg_end s' = add (seg_end s) (offset_of zero add lens i)
           /\ seg_text s' = seg_text s
           /\ seg_words s' = seg_words s
           /\ forall (l : loc) w,
                l ∈ default [] (seg_words s) -> h !! l = Some w ->
                exists w',
                  h' !! l = Some w'
                  /\ word_text w' = word_text w
                  /\ word_start w' = add (word_start w) (offset_of zero add lens i)
                  /\ word_end w' = add (word_end w) (offset_of zero add lens i).
Proof.
  intros Hlen Hnd. destruct ts as [|t0 [|t1 rest]].
  - eexists _, _. split; [reflexivity|]. intros i c j s Hi. done.
  - eexists _, _. split; [reflexivity|]. intros i c j s Hi Hj.
    destruct i as [|i]; [|done]. injection Hi as ->.
    exists s. unfold offset_of, py_sum. cbn [take foldl].
    rewrite segs_before_0, !add_zero_r. repeat split; try done.
    intros l w _ Hw. exists w. by rewrite !add_zero_r.
  - eexists _, _. split; [apply merge_closed; lia|].
    intros i c j s Hi Hj. eexists. split.
    { rewrite segments_of_some.
      apply (loop_segments_lookup _ lens 0 zero i c j s); [lia|done..]. }
    repeat split.
    intros l w Hl Hw. eexists. split.
    + rewrite (loop_heap_in _ lens zero h i c l), Hw; [done|lia|done..|].
      apply (elem_of_words_of _ s); [by eapply list_elem_of_lookup_2|done].
    + done.
Qed.

(** C10.  On two chunks or more the merge writes into its input: each
    merged segment holds the very word list of the input segment it was
    copied from, and after the call every word dictionary reachable from
    the caller's chunk [i] has its start and end increased in place by the
    offset of chunk [i], its text being kept; so the caller's store is no
    longer the one passed in as soon as one such increase changes a
    number. *)
Theorem merge_shifts_caller_words ts (lens : list num) h :
  (2 <= length ts)%nat -> (length ts <= length lens)%nat ->
  NoDup (all_words ts) ->
  exists merged h',
    merge_transcript_segments zero add ts lens h = (Ok merged, h')
    /\ (forall i c j s,
          ts !! i = Some c -> segments_of c !! j = Some s ->
          exists s',
            segments_of merged !! (segs_before ts i + j)%nat = Some s'
            /\ seg_words s' = seg_words s)
    /\ (forall i c s (l : loc) w,
          ts !! i = Some c -> s ∈ segments_of c ->
          l ∈ default [] (seg_words s) -> h !! l = Some w ->
          (exists w',
             h' !! l = Some w'
             /\ word_text w' = word_text w
             /\ word_start w' = add (word_start w) (offset_of zero add lens i)
             /\ word_end w' = add (word_end w) (offset_of zero add lens i))
          /\ (add (word_start w) (offset_of zero add lens i) <> word_start w
              \/ add (word_end w) (offset_of zero add lens i) <> word_end w
              -> h' <> h)).
Proof.
  intros H2 Hlen Hnd. destruct ts as [|t0 [|t1 rest]]; [cbn in H2; lia..|].
  eexists _, _. split; [by apply merge_closed|]. split.
  - intros i c j s Hi Hj. eexists. split.
    + rewrite segments_of_some.
      apply (loop_segments_lookup _ lens 0 zero i c j s); [lia|done..].
    + reflexivity.
  - intros i c s l w Hi Hs Hl Hw.
    assert (Hl' : loop_heap add zero lens (t0 :: t1 :: rest) h !! l
                  = Some (shift_word add (offset_of zero add lens i) w)).
    { rewrite (loop_heap_in _ lens zero h i c l), Hw; [done..|].
      by apply (elem_of_words_of _ s). }
    split; [by eexists|]. intros Hne Heq. rewrite Heq, Hw in Hl'.
    injection Hl' as Hl'. destruct w as [tx st en]. unfold shift_word in Hl'.
    cbn in Hl', Hne. injection Hl' as Hst Hen. destruct Hne as [Hne|Hne]; congruence.
Qed.

End MergeFacts.

(** ** The merge on rational seconds *)

Lemma Qplus_zero_r (x : Q) : Qplus x 0 = x.
Proof.
  destruct x as [n d]. unfold Qplus. cbn.
  rewrite Z.mul_1_r, Z.add_0_r, Pos.mul_1_r. reflexivity.
Qed.

Lemma scenario_words_NoDup : NoDup (all_words [chunk0; chunk1]).
Proof.
  cbn. apply NoDup_cons. split; [|apply NoDup_singleton].
  intros Hin. apply list_elem_of_singleton in Hin. discriminate Hin.
Qed.

(** The two-window scenario evaluated: ids 0 and 1, the second segment moved
    from 5..15 to 905..915. *)
Example merge_scenario_1200 :
  (merge_transcript_segments 0%Q Qplus [chunk0; chunk1] [900%Q; 300%Q] scenario_heap).1
  = Ok {| t_task := Some "transcribe"; t_language := Some "english";
          t_duration := Some 1200%Q;
          t_text := Some "first window second window ";
          t_segments :=
            Some [ {| seg_id := Some 0; seg_start := 10%Q; seg_end := 20%Q;
                      seg_text := "first window"; seg_words := Some [0%nat] |};
                   {| seg_id := Some 1; seg_start := 905%Q; seg_end := 915%Q;
                      seg_text := "second window"; seg_words := Some [1%nat] |} ] |}.
Proof. vm_compute. reflexivity. Qed.

Lemma merge_shifts_by_preceding_windows_witness :
  exists merged h',
    merge_transcript_segments 0%Q Qplus [chunk0; chunk1] [900%Q; 300%Q] scenario_heap
    = (Ok merged, h')
    /\ forall i c j s,
         [chunk0; chunk1] !! i = Some c -> segments_of c !! j = Some s ->
         exists s',
           segments_of merged !! (segs_before [chunk0; chunk1] i + j)%nat = Some s'
           /\ seg_start s' = Qplus (seg_start s) (offset_of 0%Q Qplus [900%Q; 300%Q] i)
           /\ seg_end s' = Qplus (seg_end s) (offset_of 0%Q Qplus [900%Q; 300%Q] i)
           /\ seg_text s' = seg_text s
           /\ seg_words s' = seg_words s
           /\ forall (l : loc) w,
                l ∈ default [] (seg_words s) -> scenario_heap !! l = Some w ->
                exists w',
                  h' !! l = Some w'
                  /\ word_text w' = word_text w
                  /\ word_start w' = Qplus (word_start w) (offset_of 0%Q Qplus [900%Q; 300%Q] i)
                  /\ word_end w' = Qplus (word_end w) (offset_of 0%Q Qplus [900%Q; 300%Q] i).
Proof.
  apply (merge_shifts_by_preceding_windows 0%Q Qplus Qplus_zero_r
           [chunk0; chunk1] [900%Q; 300%Q] scenario_heap).
  - reflexivity.
  - exact scenario_words_NoDup.
Defined.

Lemma merge_ids_contiguous_witness :
  exists merged h',
    merge_transcript_segments 0%Q Qplus [chunk0; chunk1] [900%Q; 300%Q] scenario_heap
    = (Ok merged, h')
    /\ length (segments_of merged) = total_segments [chunk0; chunk1]
    /\ seg_id <$> segments_of merged
       = (fun k : nat => Some (Z.of_nat k)) <$> seq 0 (total_segments [chunk0; chunk1]).
Proof.
  apply (merge_ids_contiguous 0%Q Qplus [chunk0; chunk1] [900%Q; 300%Q] scenario_heap).
  - cbn. lia.
  - cbn. lia.
Defined.

(** C7, as stated, fails on a single chunk: the chunk comes back as it is,
    so its one segment keeps the id 7 instead of getting the id 0. *)
Lemma merge_single_chunk_keeps_ids :
  exists merged h',
    merge_transcript_segments 0%Q Qplus [chunk_id7] [900%Q] ∅ = (Ok merged, h')
    /\ seg_id <$> segments_of merged = [Some 7]
    /\ seg_id <$> segments_of merged
       <> (fun k : nat => Some (Z.of_nat k)) <$> seq 0 (length (segments_of merged)).
Proof.
  eexists _, _. split; [reflexivity|]. split; [reflexivity|].
  vm_compute. intros Heq. discriminate Heq.
Qed.

(** C10 at the two-window scenario: the hypotheses hold, and the store that
    the caller passed in is not the store it gets back, since the word of
    chunk 1 has had 900 added to its start and end. *)
Lemma merge_shifts_caller_words_witness :
  (2 <= length [chunk0; chunk1])%nat
  /\ (length [chunk0; chunk1] <= length [900%Q; 300%Q])%nat
  /\ NoDup (all_words [chunk0; chunk1])
  /\ exists merged h',
       merge_transcript_segments 0%Q Qplus [chunk0; chunk1] [900%Q; 300%Q] scenario_heap
       = (Ok merged, h')
       /\ h' <> scenario_heap
       /\ exists w',
            h' !! 1%nat = Some w'
            /\ word_text w' = "second"
            /\ word_start w' = Qplus 5 (offset_of 0%Q Qplus [900%Q; 300%Q] 1)
            /\ word_end w' = Qplus 6 (offset_of 0%Q Qplus [900%Q; 300%Q] 1).
Proof.
  assert (H2 : (2 <= length [chunk0; chunk1])%nat) by (cbn; lia).
  assert (Hlen : (length [chunk0; chunk1] <= length [900%Q; 300%Q])%nat) by (cbn; lia).
  split; [exact H2|]. split; [exact Hlen|]. split; [exact scenario_words_NoDup|].
  destruct (merge_shifts_caller_words 0%Q Qplus [chunk0; chunk1] [900%Q; 300%Q]
              scenario_heap H2 Hlen scenario_words_NoDup)
    as (merged & h' & Hm & _ & Hwords).
  exists merged, h'. split; [exact Hm|].
  destruct (Hwords 1%nat chunk1
              {| seg_id := Some 0%Z; seg_start := 5%Q; seg_end := 15%Q;
                 seg_text := "second window"; seg_words := Some [1%nat] |}
              1%nat {| word_text := "second"; word_start := 5%Q; word_end := 6%Q |})
    as [Hw' Hchanged].
  - reflexivity.
  - apply list_elem_of_here.
  - apply list_elem_of_here.
  - reflexivity.
  - split; [|exact Hw'].
    apply Hchanged. left. vm_compute. intros Heq. discriminate Heq.
Defined.

(** The store of the scenario after the merge: the word of chunk 1, which the
    caller still holds, now reads 905..906. *)
Example merge_scenario_store :
  (merge_transcript_segments 0%Q Qplus [chunk0; chunk1] [900%Q; 300%Q] scenario_heap).2
    !! 1%nat
  = Some {| word_text := "second"; word_start := 905%Q; word_end := 906%Q |}.
Proof. vm_compute. reflexivity. Qed.

(** ** transcribe_video when a window fails *)

(** C1, evaluated.  Window 0 of the 1200 s asset fails and window 1 answers a
    segment from 5 to 15: the result is that answer as it came, at 5..15 and
    not at 905..915.  With three windows of which the middle one fails, the
    segment of window 2 is moved by 900, the length of window 0, and not by
    1800. *)
Theorem transcribe_video_failed_window :
  transcribe_video (Some asset_1200) service_first_fails scenario_heap
    = (Some chunk1, scenario_heap)
  /\ (seg_start <$> segments_of chunk1) = [5%Q]
  /\ segment_durations 2000 3 = [900%Q; 900%Q; 200%Q]
  /\ exists merged h',
       transcribe_video (Some asset_2000) service_middle_fails scenario_heap
         = (Some merged, h')
       /\ (seg_start <$> segments_of merged) = [10%Q; 905%Q].
Proof.
  split; [vm_compute; reflexivity|]. split; [reflexivity|].
  split; [vm_compute; reflexivity|].
  eexists _, _. split; [vm_compute; reflexivity|]. vm_compute. reflexivity.
Qed.

(** ** split_audio *)

(** C9, as stated, fails: for a 10 s asset and the segment length -5 the
    body of the function returns the empty list without any exception being
    raised, and for the segment length 0 the exception raised is the division
    by zero, which the function catches; both calls return the empty list. *)
Lemma split_audio_nonpositive_length_returns :
  split_audio_try (Some asset_10) (-5) = Ok []
  /\ split_audio (Some asset_10) (-5) = []
  /\ split_audio_try (Some asset_10) 0 = Raise ZeroDivisionError
  /\ split_audio (Some asset_10) 0 = [].
Proof. repeat split; vm_compute; reflexivity. Qed.

Lemma Qle_bool_false_lt (x y : Q) : (y < x)%Q -> Qle_bool x y = false.
Proof.
  intros Hlt. destruct (Qle_bool x y) eqn:Hle; [|reflexivity].
  apply Qle_bool_iff in Hle. exfalso. exact (Qlt_not_le _ _ Hlt Hle).
Qed.

Lemma Qceiling_neg (x : Q) : (x < 0)%Q -> Qceiling x <= 0.
Proof.
  intros Hx. pose proof (Qceiling_lt x) as Hc.
  assert (Hlt : (inject_Z (Qceiling x - 1) < inject_Z 0)%Q)
    by (eapply Qlt_trans; [exact Hc | exact Hx]).
  rewrite <- Zlt_Qlt in Hlt. lia.
Qed.

(** Whenever the duration is at most the segment length, the result is the
    single window of the whole asset when its audio is written, and the
    empty list when it is not. *)
Lemma split_audio_short_asset (v : video) (segment_length : Z) :
  (v_duration v <= inject_Z segment_length)%Q ->
  split_audio (Some v) segment_length
  = if v_audio v then ["temp_audio_full.mp3"] else [].
Proof.
  intros Hle. unfold split_audio, split_audio_try.
  apply Qle_bool_iff in Hle. rewrite Hle. by destruct (v_audio v).
Qed.

(** C9, amended.  The function validates nothing and lets no exception out.
    For a segment length that is not positive and a positive duration it
    returns the empty list, which is the value its caller takes for a
    failure: through the division by zero, caught by its handler, when the
    segment length is zero, and through an empty range when it is
    negative. *)
Theorem split_audio_without_validation (v : video) (segment_length : Z) :
  segment_length <= 0 -> (0 < v_duration v)%Q ->
  split_audio (Some v) segment_length = []
  /\ split_audio_try (Some v) segment_length
     = (if segment_length =? 0 then Raise ZeroDivisionError else Ok []).
Proof.
  intros Hneg Hpos. unfold split_audio, split_audio_try.
  assert (Hlt : (inject_Z segment_length < v_duration v)%Q).
  { eapply Qle_lt_trans; [|exact Hpos].
    change 0%Q with (inject_Z 0). by rewrite <- Zle_Qle. }
  rewrite (Qle_bool_false_lt _ _ Hlt).
  destruct (segment_length =? 0) eqn:Hz; [split; reflexivity|].
  apply Z.eqb_neq in Hz.
  assert (Hc : Qceiling (v_duration v / inject_Z segment_length) <= 0).
  { apply Qceiling_neg.
    destruct segment_length as [|p|p]; [lia|lia|].
    destruct (v_duration v) as [n d]. unfold Qlt in *. cbn in *. lia. }
  destruct (Qceiling (v_duration v / inject_Z segment_length)); try lia;
    split; reflexivity.
Qed.

Lemma split_audio_without_validation_witness :
  -5 <= 0 /\ (0 < v_duration asset_1200)%Q
  /\ split_audio (Some asset_1200) (-5) = []
  /\ split_audio_try (Some asset_1200) (-5)
     = (if -5 =? 0 then Raise ZeroDivisionError else Ok []).
Proof.
  split; [lia|]. split; [reflexivity|].
  apply (split_audio_without_validation asset_1200 (-5)); [lia | reflexivity].
Defined.

(** ** analyze_transcript *)

(** C3, as stated, fails: a candidate from 0 to 25 that the service returns
    is in the result. *)
Lemma analyze_transcript_keeps_short_candidate :
  analyze_transcript false (Content (Clips [candidate [0%Q; 25%Q] 8]))
    = [candidate [0%Q; 25%Q] 8]
  /\ exists d, clip_duration (candidate [0%Q; 25%Q] 8) = Some d /\ (d < 30)%Q.
Proof. split; [reflexivity|]. eexists. split; reflexivity. Qed.

(** C3, amended.  Outside demo mode the result is the list the service
    returned, entry for entry: nothing is filtered out, whatever the
    durations. *)
Theorem analyze_transcript_returns_service_clips (clips : list clip_info) :
  analyze_transcript false (Content (Clips clips)) = clips.
Proof. reflexivity. Qed.

(** Every other answer of the service gives the empty list. *)
Lemma analyze_transcript_failure_is_empty (response : chat_response) :
  (forall clips, response <> Content (Clips clips)) ->
  analyze_transcript false response = [].
Proof.
  intros Hno. destruct response as [| |[| |clips]]; try reflexivity.
  by destruct (Hno clips).
Qed.

(** C6, as stated, fails: the candidate built into demo mode lasts 9 s and
    carries the length score 10, where the table gives 4; and outside demo
    mode a candidate of 2 s that the service scored 10 comes back with 10. *)
Lemma length_score_not_recomputed :
  (exists c d, c ∈ analyze_transcript true NoChoices
               /\ clip_duration c = Some d
               /\ length_score c = 10 /\ spec_length_score d = 4)
  /\ (exists c d, c ∈ analyze_transcript false (Content (Clips [candidate [0%Q; 2%Q] 10]))
                  /\ clip_duration c = Some d
                  /\ length_score c = 10 /\ spec_length_score d = 4).
Proof.
  split; eexists _, _; (split; [apply list_elem_of_here|]);
    repeat split; vm_compute; reflexivity.
Qed.

(** C6, amended.  The program computes no length score: the scores of the
    result are the scores the service returned, in the same order, whatever
    the timecodes. *)
Theorem analyze_transcript_passes_length_score (clips : list clip_info) :
  length_score <$> analyze_transcript false (Content (Clips clips))
  = length_score <$> clips.
Proof. reflexivity. Qed.

(** The table of the specification at the boundaries it lists; at 120 s the
    interval (110,120] gives 4. *)
Example spec_length_score_boundaries :
  spec_length_score <$> [30%Q; (29999 # 1000)%Q; 90%Q; (90001 # 1000)%Q; 120%Q]
  = [10; 8; 10; 8; 4].
Proof. vm_compute. reflexivity. Qed.

(** ** Reprojection *)

(** C4, evaluated at a narrow source.  The 480 by 1280 frame is resized to
    720 by 1920, below the target width of 1080; the crop then asks for the
    columns from -180 to 900, which the slice reads as the columns from 540
    to 720.  The result is a band of 180 by 1920 from the right half of the
    frame: neither an error nor a centred frame of 1080 by 1920. *)
Theorem reproject_narrow_source_returns :
  480 * 1920 / 1280 < 1080
  /\ patched_resize (480, 1280) None (Some 1920) None = Ok (720, 1920)
  /\ py_int (inject_Z 720 / 2 - inject_Z 1080 / 2) = -180
  /\ py_int (inject_Z 720 / 2 + inject_Z 1080 / 2) = 900
  /\ slice_bound 720 (-180) = 540
  /\ slice_bound 720 900 = 720
  /\ reproject (480, 1280) = Ok (180, 1920).
Proof. repeat split; vm_compute; reflexivity. Qed.

Lemma py_int_half_diff (a b : Z) :
  py_int (inject_Z a / 2 - inject_Z b / 2) = (a - b) ÷ 2.
Proof.
  unfold py_int, Qminus, Qplus, Qopp, Qdiv, Qmult, Qinv, inject_Z. simpl.
  change (Z.pos (1 * 2)) with 2. change (Z.pos (1 * 2 * (1 * 2))) with (2 * 2).
  replace (a * 1 * 2 + - (b * 1) * 2) with (2 * (a - b)) by lia.
  apply Z.quot_mul_cancel_l; lia.
Qed.

Lemma py_int_half_sum (a b : Z) :
  py_int (inject_Z a / 2 + inject_Z b / 2) = (a + b) ÷ 2.
Proof.
  unfold py_int, Qplus, Qdiv, Qmult, Qinv, inject_Z. simpl.
  change (Z.pos (1 * 2)) with 2. change (Z.pos (1 * 2 * (1 * 2))) with (2 * 2).
  replace (a * 1 * 2 + b * 1 * 2) with (2 * (a + b)) by lia.
  apply Z.quot_mul_cancel_l; lia.
Qed.

Lemma Qeq_bool_half_false (a b : Z) :
  0 < a + b -> Qeq_bool (inject_Z a / 2 + inject_Z b / 2) 0 = false.
Proof.
  intros Hpos. apply not_true_iff_false. intros Heq. apply Qeq_bool_iff in Heq.
  unfold Qeq in Heq. simpl in Heq. rewrite ?Pos2Z.inj_mul in Heq. lia.
Qed.

(** The crop of a frame of width [w'], centred, to the width 1080. *)
Lemma crop_center_size (w' hh : Z) :
  0 < w' -> 0 <= hh ->
  crop (w', hh) (inject_Z w' / 2) 1080
  = (slice_length w' ((w' - 1080) ÷ 2) ((w' + 1080) ÷ 2), hh).
Proof.
  intros Hw Hh. unfold crop. cbn [fst snd].
  assert (Hnz : Qeq_bool (inject_Z w' / 2) 0 = false).
  { apply not_true_iff_false. intros Heq. apply Qeq_bool_iff in Heq.
    unfold Qeq in Heq. simpl in Heq. rewrite ?Pos2Z.inj_mul in Heq. lia. }
  rewrite Hnz, Qeq_bool_half_false by lia.
  rewrite py_int_half_diff, py_int_half_sum. f_equal.
  unfold slice_length, slice_bound. cbn.
  destruct (Z.ltb_spec hh 0); lia.
Qed.

(** ** The extraction loop *)

(** C5, as stated, fails: when the first of two candidates has a malformed
    timecode list, no clip is written at all, although the second candidate
    alone gets its clip. *)
Lemma create_vertical_clips_failure_stops_the_rest :
  create_vertical_clips false (Some asset_1200)
    [candidate [10%Q] 10; candidate [0%Q; 40%Q] 10] = []
  /\ create_vertical_clips false (Some asset_1200) [candidate [0%Q; 40%Q] 10]
     = [VerticalClip 1 0%Q 40%Q (1080, 1920)].
Proof. split; vm_compute; reflexivity. Qed.

(** The loop on candidates that all succeed, followed by one that raises:
    the candidates after it are never looked at. *)
Lemma clips_loop_stops (v : video) (pre : list clip_info) :
  forall (i : nat) written c post e,
    (forall (k : nat) x, pre !! k = Some x -> exists f, make_clip v (i + k) x = Ok f) ->
    make_clip v (i + length pre) c = Raise e ->
    clips_loop v i (pre ++ c :: post) written
      = ((clips_loop v i pre written).1, Some e)
    /\ length (clips_loop v i pre written).1 = (length written + length pre)%nat.
Proof.
  induction pre as [|x pre IH]; intros i written c post e Hpre Hc.
  - cbn in *. rewrite Nat.add_0_r in Hc. rewrite Hc. split; [reflexivity|lia].
  - destruct (Hpre 0%nat x eq_refl) as [f Hf]. rewrite Nat.add_0_r in Hf.
    cbn [app clips_loop]. rewrite Hf.
    destruct (IH (S i) (written ++ [f]) c post e) as [Heq Hlen].
    + intros k y Hk. destruct (Hpre (S k) y Hk) as [g Hg].
      exists g. rewrite <- Hg. f_equal. lia.
    + rewrite <- Hc. f_equal. cbn. lia.
    + split; [exact Heq|]. rewrite Hlen, length_app. cbn. lia.
Qed.

(** C5, amended.  Outside demo mode, when the candidates before some
    candidate all succeed and that candidate raises, the files written are
    exactly those of the candidates before it, one each: no clip is written
    for the failing candidate nor for any candidate after it, and the error
    does not leave the function. *)
Theorem create_vertical_clips_stops_at_first_failure
    (v : video) (pre : list clip_info) (c : clip_info) (post : list clip_info) (e : exn) :
  (forall (k : nat) x, pre !! k = Some x -> exists f, make_clip v (S k) x = Ok f) ->
  make_clip v (S (length pre)) c = Raise e ->
  create_vertical_clips false (Some v) (pre ++ c :: post)
    = create_vertical_clips false (Some v) pre
  /\ length (create_vertical_clips false (Some v) pre) = length pre.
Proof.
  intros Hpre Hc. unfold create_vertical_clips.
  destruct (clips_loop_stops v pre 1 [] c post e Hpre Hc) as [Heq Hlen].
  rewrite Heq. split; [reflexivity|exact Hlen].
Qed.

Lemma create_vertical_clips_stops_at_first_failure_witness :
  create_vertical_clips false (Some asset_1200)
    ([candidate [0%Q; 40%Q] 10] ++ candidate [10%Q] 10 :: [candidate [50%Q; 95%Q] 10])
    = create_vertical_clips false (Some asset_1200) [candidate [0%Q; 40%Q] 10]
  /\ length (create_vertical_clips false (Some asset_1200) [candidate [0%Q; 40%Q] 10])
     = length [candidate [0%Q; 40%Q] 10].
Proof.
  apply (create_vertical_clips_stops_at_first_failure asset_1200
           [candidate [0%Q; 40%Q] 10] (candidate [10%Q] 10)
           [candidate [50%Q; 95%Q] 10] ValueError).
  - intros [|[|k]] x Hk; [|discriminate Hk..].
    injection Hk as <-. eexists. vm_compute. reflexivity.
  - reflexivity.
Defined.

(** * Further properties *)

(** ** The merge: what it keeps and what it leaves alone *)

Section MergeMore.

Context {num : Type}.
Variable zero : num.
Variable add : num -> num -> num.

Implicit Types (st : @merge_state num) (h : gmap loc (@word num)).
Implicit Types (ts : list (@transcript num)) (segs : list (@segment num)).

Lemma shift_words_dom off (ws : list loc) h :
  dom (shift_words add off ws h) = dom h.
Proof.
  revert h. induction ws as [|a ws IH]; intros h; [done|].
  cbn. change (dom (shift_words add off ws (alter (shift_word add off) a h)) = dom h).
  by rewrite IH, dom_alter_L.
Qed.

(** The store of the loop, whether it ends or raises: the store of a run
    over the chunks it reached, with one more window length appended. *)
Lemma merge_loop_heap (lens : list num) ts : forall i st d,
  m_heap (merge_loop add lens i ts st).2
  = loop_heap add (current_offset st) (drop i lens ++ [d])
      (take (S (length (drop i lens))) ts) (m_heap st).
Proof.
  induction ts as [|t ts IH]; intros i st d; [done|].
  cbn [merge_loop]. destruct (lens !! i) as [d0|] eqn:Hd.
  - rewrite (drop_S _ _ _ Hd). rewrite (IH (S i) _ d).
    rewrite add_transcript_closed. reflexivity.
  - apply lookup_ge_None in Hd. rewrite drop_ge by done.
    rewrite add_transcript_closed. reflexivity.
Qed.

Lemma loop_heap_dom ts : forall (ds : list num) off h,
  dom (loop_heap add off ds ts h) = dom h.
Proof.
  induction ts as [|t ts IH]; intros ds off h; [done|].
  destruct ds as [|d ds]; [done|]. cbn [loop_heap].
  by rewrite IH, shift_words_dom.
Qed.

(** The store that the function leaves, in every case. *)
Lemma merge_heap ts (lens : list num) h :
  (merge_transcript_segments zero add ts lens h).2
  = match ts with
    | [] | [_] => h
    | _ => loop_heap add zero (lens ++ [zero]) (take (S (length lens)) ts) h
    end.
Proof.
  destruct ts as [|t0 [|t1 rest]]; [done..|].
  unfold merge_transcript_segments.
  pose proof (merge_loop_heap lens (t0 :: t1 :: rest) 0 (initial_state zero h) zero) as Hh.
  rewrite drop_0 in Hh.
  destruct (merge_loop add lens 0 (t0 :: t1 :: rest) (initial_state zero h))
    as [[e|] st]; exact Hh.
Qed.

Lemma all_words_take_subseteq ts (k : nat) (l : loc) :
  l ∈ all_words (take k ts) -> l ∈ all_words ts.
Proof.
  revert k. induction ts as [|t ts IH]; intros k Hl; [by destruct k|].
  destruct k as [|k]; [by apply elem_of_nil in Hl|].
  cbn [take] in Hl. rewrite all_words_cons in *.
  apply elem_of_app in Hl as [Hl|Hl]; apply elem_of_app; [by left|right; eauto].
Qed.

Lemma all_words_app ts1 ts2 :
  all_words (ts1 ++ ts2) = all_words ts1 ++ all_words ts2.
Proof. unfold all_words. by rewrite map_app, concat_app. Qed.

Lemma all_words_take_NoDup ts (k : nat) :
  NoDup (all_words ts) -> NoDup (all_words (take k ts)).
Proof.
  intros Hnd. rewrite <- (take_drop k ts), all_words_app in Hnd.
  by apply NoDup_app in Hnd as (? & _ & _).
Qed.

Lemma all_words_take_notin ts (k i : nat) c (l : loc) :
  NoDup (all_words ts) -> (k <= i)%nat ->
  ts !! i = Some c -> l ∈ words_of (segments_of c) ->
  l ∉ all_words (take k ts).
Proof.
  intros Hnd Hki Hi Hl Hin.
  rewrite <- (take_drop k ts), all_words_app in Hnd.
  apply NoDup_app in Hnd as (_ & Hdisj & _). apply (Hdisj l Hin).
  apply (elem_of_all_words _ (i - k) c); [|done].
  rewrite lookup_drop. by replace (k + (i - k))%nat with i by lia.
Qed.

Lemma merge_loop_raises (lens : list num) ts : forall i st,
  (length (drop i lens) < length ts)%nat ->
  (merge_loop add lens i ts st).1 = Some IndexError.
Proof.
  induction ts as [|t ts IH]; intros i st Hlen; [cbn in Hlen; lia|].
  cbn [merge_loop]. destruct (lens !! i) as [d|] eqn:Hd; [|done].
  apply IH. rewrite (drop_S _ _ _ Hd) in Hlen. cbn in Hlen. lia.
Qed.

(** X1.  Whatever the chunks and the window lengths, and whether the call
    returns or raises, the merge leaves every word dictionary that no chunk
    refers to as it was, and it neither adds nor removes a word dictionary. *)
Theorem merge_leaves_other_words ts (lens : list num) h (l : loc) :
  l ∉ all_words ts ->
  (merge_transcript_segments zero add ts lens h).2 !! l = h !! l
  /\ dom (merge_transcript_segments zero add ts lens h).2 = dom h.
Proof.
  intros Hl. rewrite merge_heap. destruct ts as [|t0 [|t1 rest]]; [done..|]. split.
  - apply loop_heap_notin. intros Hin. apply Hl.
    by apply all_words_take_subseteq in Hin.
  - apply loop_heap_dom.
Qed.

(** X2.  With two chunks or more and fewer window lengths than chunks, the
    merge raises [IndexError], and it has by then written to the store: every
    word of a chunk that has a window length, and of the first chunk that has
    none, keeps its text and has its start and end increased by the offset
    of its chunk; the words of the later chunks are as they were. *)
Theorem merge_too_few_lengths ts (lens : list num) h :
  (2 <= length ts)%nat -> (length lens < length ts)%nat ->
  NoDup (all_words ts) ->
  (merge_transcript_segments zero add ts lens h).1 = Raise IndexError
  /\ forall (i : nat) c (l : loc) w,
       ts !! i = Some c -> l ∈ words_of (segments_of c) -> h !! l = Some w ->
       exists w',
         (merge_transcript_segments zero add ts lens h).2 !! l = Some w'
         /\ word_text w' = word_text w
         /\ word_start w'
            = (if decide (i <= length lens)%nat
               then add (word_start w) (offset_of zero add lens i) else word_start w)
         /\ word_end w'
            = (if decide (i <= length lens)%nat
               then add (word_end w) (offset_of zero add lens i) else word_end w).
Proof.
  intros H2 Hlen Hnd. split.
  - destruct ts as [|t0 [|t1 rest]]; [cbn in H2; lia..|].
    unfold merge_transcript_segments.
    pose proof (merge_loop_raises lens (t0 :: t1 :: rest) 0 (initial_state zero h)) as Hr.
    rewrite drop_0 in Hr. specialize (Hr Hlen).
    destruct (merge_loop add lens 0 (t0 :: t1 :: rest) (initial_state zero h))
      as [[e|] st]; cbn in Hr; [|done]. by injection Hr as ->.
  - intros i c l w Hi Hl Hw. rewrite merge_heap.
    destruct ts as [|t0 [|t1 rest]]; [cbn in H2; lia..|].
    set (ts := t0 :: t1 :: rest) in *. case_decide as Hle.
    + eexists. split.
      * rewrite (loop_heap_in add (take (S (length lens)) ts) _ zero h i c l), Hw.
        -- reflexivity.
        -- rewrite length_take, length_app. cbn. lia.
        -- by apply all_words_take_NoDup.
        -- rewrite lookup_take_lt by lia. done.
        -- done.
      * cbn. unfold offset_of, py_sum. by rewrite take_app_le.
    + exists w. split; [|done]. rewrite loop_heap_notin; [done|].
      apply (all_words_take_notin ts _ i c l); [done|lia|done..].
Qed.


Lemma renumber_proj {B} (f : @segment num -> B) id off segs :
  (forall id' s, f (new_segment add id' off s) = f s) ->
  f <$> renumber add id off segs = f <$> segs.
Proof.
  intros Hf. revert id. induction segs as [|s segs IH]; intros id; [done|].
  rewrite renumber_cons. cbn [fmap list_fmap]. rewrite Hf. f_equal. apply IH.
Qed.

Lemma loop_segments_proj {B} (f : @segment num -> B) ts :
  (forall id off s, f (new_segment add id off s) = f s) ->
  forall (ds : list num) id off,
    (length ts <= length ds)%nat ->
    f <$> loop_segments add id off ds ts = f <$> concat (segments_of <$> ts).
Proof.
  intros Hf. induction ts as [|t ts IH]; intros ds id off Hlen; [done|].
  destruct ds as [|d ds]; [cbn in Hlen; lia|]. cbn in Hlen.
  cbn [loop_segments fmap list_fmap concat]. rewrite !fmap_app. f_equal.
  - apply renumber_proj. intros; apply Hf.
  - apply IH. lia.
Qed.

(** With a window length for every chunk the function does not raise. *)
Lemma merge_returns ts (lens : list num) h :
  (length ts <= length lens)%nat ->
  exists merged h', merge_transcript_segments zero add ts lens h = (Ok merged, h').
Proof.
  intros Hlen. destruct ts as [|t0 [|t1 rest]]; eexists _, _;
    [reflexivity | reflexivity | by apply merge_closed].
Qed.

(** X3.  With a window length for every chunk the merge returns, and its
    segments are the segments of the chunks in chunk order, none lost, none
    repeated and none moved: their texts and their word lists, read in
    order, are those of the input. *)
Theorem merge_keeps_segments_in_order ts (lens : list num) h :
  (length ts <= length lens)%nat ->
  exists merged h',
    merge_transcript_segments zero add ts lens h = (Ok merged, h')
    /\ seg_text <$> segments_of merged = seg_text <$> concat (segments_of <$> ts)
    /\ seg_words <$> segments_of merged = seg_words <$> concat (segments_of <$> ts).
Proof.
  intros Hlen. destruct ts as [|t0 [|t1 rest]].
  - eexists _, _. split; [reflexivity|]. done.
  - eexists _, _. split; [reflexivity|]. cbn. by rewrite app_nil_r.
  - eexists _, _. split; [by apply merge_closed|].
    rewrite segments_of_some. split; by apply loop_segments_proj.
Qed.

End MergeMore.

(** ** The merge on rational seconds: order of the start times *)

Lemma renumber_starts id (off : Q) (segs : list (@segment Q)) :
  seg_start <$> renumber Qplus id off segs
  = (fun x => Qplus x off) <$> (seg_start <$> segs).
Proof.
  revert id. induction segs as [|s segs IH]; intros id; [done|].
  rewrite renumber_cons. cbn [fmap list_fmap new_segment seg_start]. f_equal. apply IH.
Qed.

(** The starts that the loop appends are in order and not below the offset it
    starts from, when every chunk is in order and inside its window. *)
Lemma loop_segments_sorted (ts : list (@transcript Q)) :
  forall (ds : list Q) id (off : Q),
    (length ts <= length ds)%nat ->
    (forall (i : nat) c d, ts !! i = Some c -> ds !! i = Some d ->
       (0 <= d)%Q
       /\ StronglySorted Qle (seg_start <$> segments_of c)
       /\ Forall (fun s => (0 <= seg_start s)%Q /\ (seg_start s <= d)%Q) (segments_of c)) ->
    StronglySorted Qle (seg_start <$> loop_segments Qplus id off ds ts)
    /\ Forall (fun x => (off <= x)%Q) (seg_start <$> loop_segments Qplus id off ds ts).
Proof.
  induction ts as [|t ts IH]; intros ds id off Hlen Hwf.
  - split; constructor.
  - destruct ds as [|d ds]; [cbn in Hlen; lia|]. cbn in Hlen.
    destruct (Hwf 0%nat t d eq_refl eq_refl) as (Hd & Hsort & Hin).
    destruct (IH ds (id + Z.of_nat (length (segments_of t))) (off + d)%Q) as [IHs IHb];
      [lia | intros i c d' Hi Hd'; exact (Hwf (S i) c d' Hi Hd') |].
    cbn [loop_segments]. rewrite fmap_app, renumber_starts.
    assert (Hhead : Forall (fun x => (off <= x)%Q /\ (x <= off + d)%Q)
                      ((fun x => Qplus x off) <$> (seg_start <$> segments_of t))).
    { rewrite !Forall_fmap. eapply Forall_impl; [exact Hin|].
      intros s [H0 H1]. cbn. split; lra. }
    split.
    + apply StronglySorted_app_2; [| |exact IHs].
      * intros x1 x2 Hx1 Hx2.
        rewrite Forall_forall in Hhead, IHb.
        destruct (Hhead x1 Hx1) as [_ Hup]. specialize (IHb x2 Hx2). lra.
      * eapply StronglySorted_fmap; [|exact Hsort]. intros x y Hxy. lra.
    + apply Forall_app. split.
      * eapply Forall_impl; [exact Hhead|]. by intros x [? _].
      * eapply Forall_impl; [exact IHb|]. intros x Hx. cbn in Hx. lra.
Qed.

(** X4.  On rational seconds: when every chunk has a window length that is
    not negative, and the segments of every chunk are in order of start time
    with starts inside the chunk's window, the merge returns with the start
    times of all its segments in order, across the chunk boundaries too.  The
    merge does not sort; it relies on these conditions. *)
Theorem merge_starts_sorted (ts : list (@transcript Q)) (lens : list Q) h :
  (length ts <= length lens)%nat ->
  (forall (i : nat) c d, ts !! i = Some c -> lens !! i = Some d ->
     (0 <= d)%Q
     /\ StronglySorted Qle (seg_start <$> segments_of c)
     /\ Forall (fun s => (0 <= seg_start s)%Q /\ (seg_start s <= d)%Q) (segments_of c)) ->
  exists merged h',
    merge_transcript_segments 0%Q Qplus ts lens h = (Ok merged, h')
    /\ StronglySorted Qle (seg_start <$> segments_of merged).
Proof.
  intros Hlen Hwf. destruct ts as [|t0 [|t1 rest]].
  - eexists _, _. split; [reflexivity|]. constructor.
  - eexists _, _. split; [reflexivity|].
    destruct lens as [|d lens]; [cbn in Hlen; lia|].
    by destruct (Hwf 0%nat t0 d eq_refl eq_refl) as (_ & Hsort & _).
  - eexists _, _. split; [by apply merge_closed|].
    rewrite segments_of_some. by apply loop_segments_sorted.
Qed.

Lemma merge_starts_sorted_witness :
  exists merged h',
    merge_transcript_segments 0%Q Qplus [chunk0; chunk1] [900%Q; 300%Q] scenario_heap
    = (Ok merged, h')
    /\ StronglySorted Qle (seg_start <$> segments_of merged).
Proof.
  apply (merge_starts_sorted [chunk0; chunk1] [900%Q; 300%Q] scenario_heap).
  - cbn. lia.
  - intros [|[|i]] c d Hc Hd; [| |discriminate Hc];
      injection Hc as <-; injection Hd as <-;
      (split; [discriminate|]); (split; [repeat constructor|]);
      repeat constructor; discriminate.
Defined.

(** ** split_audio: how many windows, and their names *)

Lemma map_fmap {A B} (f : A -> B) (l : list A) : map f l = f <$> l.
Proof. induction l as [|x l IH]; [done|]. cbn. by rewrite IH. Qed.

Lemma to_uint_not_Nil (n : nat) : Nat.to_uint n <> Decimal.Nil.
Proof.
  intros Hn. pose proof (Unsigned.of_to n) as Hof. rewrite Hn in Hof.
  cbn in Hof. subst n. discriminate Hn.
Qed.

Lemma string_of_nat_inj (i j : nat) :
  NilZero.string_of_uint (Nat.to_uint i) = NilZero.string_of_uint (Nat.to_uint j) ->
  i = j.
Proof.
  intros Heq. apply Unsigned.to_uint_inj.
  pose proof (NilZero.usu _ (to_uint_not_Nil i)) as Hi.
  pose proof (NilZero.usu _ (to_uint_not_Nil j)) as Hj.
  rewrite Heq in Hi. congruence.
Qed.

Lemma string_app_inj_r (a b c : string) :
  (a ++ c)%string = (b ++ c)%string -> a = b.
Proof.
  assert (Hlen : forall x y : string,
             String.length (x ++ y)%string = (String.length x + String.length y)%nat).
  { intros x y. induction x as [|ch x IH]; [done|].
    change (S (String.length (x ++ y)%string) = S (String.length x + String.length y)).
    by rewrite IH. }
  revert b. induction a as [|x a IH]; intros [|y b] Heq.
  - reflexivity.
  - apply (f_equal String.length) in Heq. rewrite !Hlen in Heq. cbn in Heq. lia.
  - apply (f_equal String.length) in Heq. rewrite !Hlen in Heq. cbn in Heq. lia.
  - change (String x (a ++ c)%string = String y (b ++ c)%string) in Heq.
    injection Heq as -> Heq. f_equal. by apply IH.
Qed.

Lemma segment_file_inj (i j : nat) : segment_file i = segment_file j -> i = j.
Proof.
  unfold segment_file. intros Heq.
  apply (inj (String.append "temp_audio_segment_")) in Heq.
  apply string_app_inj_r in Heq. by apply string_of_nat_inj.
Qed.

(** The least number of windows of length [L] that cover a duration [D]
    longer than one window. *)
Lemma windows_cover (D : Q) (L : Z) :
  0 < L -> (inject_Z L < D)%Q ->
  2 <= Qceiling (D / inject_Z L)
  /\ (inject_Z ((Qceiling (D / inject_Z L) - 1) * L) < D)%Q
  /\ (D <= inject_Z (Qceiling (D / inject_Z L) * L))%Q.
Proof.
  intros HL HD. set (c := Qceiling (D / inject_Z L)).
  assert (HLq : (0 < inject_Z L)%Q) by (change 0%Q with (inject_Z 0); by rewrite <- Zlt_Qlt).
  pose proof (Qle_ceiling (D / inject_Z L)) as Hup.
  pose proof (Qceiling_lt (D / inject_Z L)) as Hlo.
  fold c in Hup, Hlo.
  assert (Hx : (D == (D / inject_Z L) * inject_Z L)%Q).
  { rewrite Qmult_comm, Qmult_div_r; [reflexivity|]. intros H0. rewrite H0 in HLq.
    by apply Qlt_irrefl in HLq. }
  assert (Hm : (inject_Z (c - 1) == inject_Z c - 1)%Q).
  { unfold Z.sub. rewrite inject_Z_plus. reflexivity. }
  rewrite !inject_Z_mult, Hm. rewrite Hm in Hlo.
  set (x := (D / inject_Z L)%Q) in *. set (l := inject_Z L) in *. set (cq := inject_Z c) in *.
  assert (H1 : (1 < x)%Q).
  { apply Qnot_le_lt. intros Hle.
    assert (x * l <= 1 * l)%Q by (apply Qmult_le_compat_r; [done|by apply Qlt_le_weak]).
    lra. }
  split; [|split].
  - assert (Hc : (inject_Z 1 < cq)%Q) by (change (inject_Z 1) with 1%Q; lra).
    unfold cq in Hc. rewrite <- Zlt_Qlt in Hc. lia.
  - assert ((cq - 1) * l < x * l)%Q by (apply Qmult_lt_compat_r; [done|lra]). lra.
  - assert (x * l <= cq * l)%Q by (apply Qmult_le_compat_r; [done|by apply Qlt_le_weak]).
    lra.
Qed.

Lemma Qlt_bool_false (a b : Q) : (b <= a)%Q -> Qlt_bool a b = false.
Proof. intros H. unfold Qlt_bool. apply Qle_bool_iff in H. by rewrite H. Qed.

Lemma Qlt_bool_true (a b : Q) : (a < b)%Q -> Qlt_bool a b = true.
Proof. intros H. unfold Qlt_bool. by rewrite Qle_bool_false_lt. Qed.

(** [subclip] returns for a start inside the clip. *)
Lemma subclip_inside (duration t_start t_end : Q) :
  (0 <= t_start)%Q -> (t_start <= duration)%Q ->
  exists window, subclip duration t_start t_end = Ok window.
Proof.
  intros H0 H1. unfold subclip.
  rewrite (Qlt_bool_false t_start 0) by exact H0.
  rewrite (Qlt_bool_false duration t_start) by exact H1. eauto.
Qed.

(** The loop over windows that all start inside the asset, when the audio
    is written. *)
Lemma split_loop_names (v : video) (segment_length : Z) (indices : list nat) :
  v_audio v = true ->
  (forall i : nat, i ∈ indices ->
     (0 <= inject_Z (Z.of_nat i * segment_length))%Q
     /\ (inject_Z (Z.of_nat i * segment_length) <= v_duration v)%Q) ->
  forall temp_files,
    split_loop v segment_length indices temp_files
    = Ok (temp_files ++ (segment_file <$> indices)).
Proof.
  intros Haudio. induction indices as [|i rest IH]; intros Hin temp_files.
  - cbn. by rewrite app_nil_r.
  - cbn [split_loop]. unfold write_segment.
    destruct (Hin i (list_elem_of_here _ _)) as [H0 H1].
    destruct (subclip_inside (v_duration v) _
                (py_min (inject_Z ((Z.of_nat i + 1) * segment_length)) (v_duration v))
                H0 H1) as [window ->].
    rewrite Haudio, IH by (intros i' Hi'; apply Hin; by right).
    by rewrite <- app_assoc.
Qed.

(** Without audio the function returns the empty list, whatever the rest. *)
Lemma split_audio_no_audio (v : video) (segment_length : Z) :
  v_audio v = false -> split_audio (Some v) segment_length = [].
Proof.
  intros Haudio. unfold split_audio, split_audio_try. rewrite Haudio.
  destruct (Qle_bool _ _); [done|]. destruct (segment_length =? 0); [done|].
  destruct (Z.to_nat _) as [|n]; [done|].
  cbn [seq split_loop]. unfold write_segment. rewrite Haudio.
  by destruct (subclip _ _ _).
Qed.

Lemma split_audio_long_asset_aux (v : video) (segment_length : Z) :
  0 < segment_length -> (inject_Z segment_length < v_duration v)%Q ->
  v_audio v = true ->
  exists n : nat,
    split_audio (Some v) segment_length = segment_file <$> seq 0 n
    /\ (2 <= n)%nat
    /\ (inject_Z ((Z.of_nat n - 1) * segment_length) < v_duration v)%Q
    /\ (v_duration v <= inject_Z (Z.of_nat n * segment_length))%Q.
Proof.
  intros HL HD Haudio.
  destruct (windows_cover (v_duration v) segment_length HL HD) as (Hc & Hlo & Hup).
  exists (Z.to_nat (Qceiling (v_duration v / inject_Z segment_length))).
  rewrite Z2Nat.id by lia. repeat split; [|lia|done..].
  unfold split_audio, split_audio_try.
  rewrite (Qle_bool_false_lt _ _ HD).
  destruct (segment_length =? 0) eqn:Hz; [apply Z.eqb_eq in Hz; lia|].
  rewrite (split_loop_names v segment_length _ Haudio); [done|].
  intros i Hi. apply elem_of_seq in Hi as [_ Hi]. split.
  - change 0%Q with (inject_Z 0). rewrite <- Zle_Qle. lia.
  - apply Qlt_le_weak. eapply Qle_lt_trans; [|exact Hlo]. rewrite <- Zle_Qle. nia.
Qed.

(** X5.  For a positive segment length and a longer asset whose audio is
    written, the function returns one name for each of the
    [ceil(duration / segment_length)] windows: at least two, that many
    windows cover the asset and one fewer does not, and the names are
    pairwise distinct, so no window's audio file overwrites another's.  When
    the audio cannot be written it returns the empty list. *)
Theorem split_audio_long_asset (v : video) (segment_length : Z) :
  0 < segment_length -> (inject_Z segment_length < v_duration v)%Q ->
  (v_audio v = false -> split_audio (Some v) segment_length = [])
  /\ (v_audio v = true ->
      exists n : nat,
        split_audio (Some v) segment_length = segment_file <$> seq 0 n
        /\ (2 <= n)%nat
        /\ (inject_Z ((Z.of_nat n - 1) * segment_length) < v_duration v)%Q
        /\ (v_duration v <= inject_Z (Z.of_nat n * segment_length))%Q
        /\ NoDup (split_audio (Some v) segment_length)).
Proof.
  intros HL HD. split; [apply split_audio_no_audio|]. intros Haudio.
  destruct (split_audio_long_asset_aux v segment_length HL HD Haudio)
    as (n & Heq & H2 & Hlo & Hup).
  exists n. repeat split; [done..|]. rewrite Heq.
  apply NoDup_fmap_2_strong; [|apply NoDup_seq].
  intros i j _ _. apply segment_file_inj.
Qed.

Lemma split_audio_long_asset_witness :
  0 < 900 /\ (inject_Z 900 < v_duration asset_2000)%Q
  /\ v_audio asset_2000 = true
  /\ exists n : nat,
       split_audio (Some asset_2000) 900 = segment_file <$> seq 0 n
       /\ (2 <= n)%nat
       /\ (inject_Z ((Z.of_nat n - 1) * 900) < v_duration asset_2000)%Q
       /\ (v_duration asset_2000 <= inject_Z (Z.of_nat n * 900))%Q
       /\ NoDup (split_audio (Some asset_2000) 900).
Proof.
  split; [lia|]. split; [reflexivity|]. split; [reflexivity|].
  destruct (split_audio_long_asset asset_2000 900) as [_ Hnames]; [lia|reflexivity|].
  apply Hnames. reflexivity.
Defined.

(** ** transcribe_video: the window lengths and the result *)

Lemma py_min_le (a b : Q) : (a <= b)%Q -> py_min a b = a.
Proof. intros H. unfold py_min. apply Qle_bool_iff in H. by rewrite H. Qed.

Lemma py_min_gt (a b : Q) : (b < a)%Q -> py_min a b = b.
Proof. intros H. unfold py_min. by rewrite Qle_bool_false_lt. Qed.

Lemma segment_durations_S (D : Q) (k : nat) :
  segment_durations D (S k)
  = segment_durations D k
      ++ [(py_min (inject_Z ((Z.of_nat k + 1) * 900)) D - inject_Z (Z.of_nat k * 900))%Q].
Proof. unfold segment_durations. by rewrite seq_S, map_app. Qed.

Lemma length_segment_durations (D : Q) (n : nat) :
  length (segment_durations D n) = n.
Proof. unfold segment_durations. by rewrite length_map, length_seq. Qed.

(** While the windows start inside the asset, their lengths add up to the end
    of the last one. *)
Lemma segment_durations_sum (D : Q) (k : nat) :
  (0 <= D)%Q ->
  (forall i : nat, (i < k)%nat -> (inject_Z (Z.of_nat i * 900) <= D)%Q) ->
  (py_sum 0%Q Qplus (segment_durations D k) == py_min (inject_Z (Z.of_nat k * 900)) D)%Q.
Proof.
  intros HD. induction k as [|k IH]; intros Hin.
  - cbn. rewrite py_min_le by exact HD. reflexivity.
  - rewrite segment_durations_S. unfold py_sum in *. rewrite foldl_snoc.
    rewrite IH by (intros i Hi; apply Hin; lia).
    rewrite (py_min_le (inject_Z (Z.of_nat k * 900))) by (apply Hin; lia).
    replace (Z.of_nat (S k) * 900) with ((Z.of_nat k + 1) * 900) by lia.
    ring.
Qed.

(** Every window that starts before the end of the asset has a length in
    (0, 900]. *)
Lemma segment_durations_bounds (D : Q) (n : nat) :
  (forall i : nat, (i < n)%nat -> (inject_Z (Z.of_nat i * 900) < D)%Q) ->
  Forall (fun d => (0 < d)%Q /\ (d <= 900)%Q) (segment_durations D n).
Proof.
  intros Hin. unfold segment_durations. rewrite map_fmap, Forall_fmap.
  apply Forall_forall. intros i Hi. apply elem_of_seq in Hi as [_ Hi]. cbn.
  specialize (Hin i ltac:(lia)).
  assert (He : (inject_Z ((Z.of_nat i + 1) * 900) == inject_Z (Z.of_nat i * 900) + 900)%Q).
  { replace ((Z.of_nat i + 1) * 900) with (Z.of_nat i * 900 + 900) by lia.
    rewrite inject_Z_plus. reflexivity. }
  destruct (Qlt_le_dec D (inject_Z ((Z.of_nat i + 1) * 900))) as [Hlt|Hle].
  - rewrite py_min_gt by exact Hlt. split; lra.
  - rewrite py_min_le by exact Hle. split; lra.
Qed.

(** The number of audio files of a readable asset of positive duration
    whose split succeeded, with the fixed segment length of 900 s, and where
    the windows start and end. *)
Lemma split_audio_900 (v : video) :
  (0 < v_duration v)%Q ->
  split_audio (Some v) (15 * 60) <> [] ->
  exists n : nat,
    length (split_audio (Some v) (15 * 60)) = n
    /\ (1 <= n)%nat
    /\ (inject_Z ((Z.of_nat n - 1) * 900) < v_duration v)%Q
    /\ (v_duration v <= inject_Z (Z.of_nat n * 900))%Q.
Proof.
  intros Hpos Hne. change (15 * 60) with 900 in *.
  destruct (v_audio v) eqn:Haudio; [|by rewrite split_audio_no_audio in Hne].
  destruct (Qlt_le_dec (inject_Z 900) (v_duration v)) as [Hlong|Hshort].
  - destruct (split_audio_long_asset_aux v 900 ltac:(lia) Hlong Haudio)
      as (n & Heq & H2 & Hlo & Hup).
    exists n. rewrite Heq, length_fmap, length_seq. repeat split; [lia|done..].
  - exists 1%nat. rewrite split_audio_short_asset, Haudio by exact Hshort.
    repeat split; [done|exact Hpos|exact Hshort].
Qed.

(** X6.  For a readable asset of positive duration on which [split_audio]
    succeeded (its list is not empty), the window lengths that
    [transcribe_video] computes, one for each audio file, are each in
    (0, 900] and add up to the duration of the asset: the windows tile the
    asset. *)
Theorem segment_durations_tile (v : video) :
  (0 < v_duration v)%Q ->
  split_audio (Some v) (15 * 60) <> [] ->
  (py_sum 0%Q Qplus
     (segment_durations (v_duration v) (length (split_audio (Some v) (15 * 60))))
   == v_duration v)%Q
  /\ Forall (fun d => (0 < d)%Q /\ (d <= 900)%Q)
       (segment_durations (v_duration v) (length (split_audio (Some v) (15 * 60)))).
Proof.
  intros Hpos Hne. destruct (split_audio_900 v Hpos Hne) as (n & -> & H1 & Hlo & Hup).
  assert (Hin : forall i : nat, (i < n)%nat -> (inject_Z (Z.of_nat i * 900) < v_duration v)%Q).
  { intros i Hi. eapply Qle_lt_trans; [|exact Hlo]. rewrite <- Zle_Qle. lia. }
  split.
  - rewrite segment_durations_sum;
      [|by apply Qlt_le_weak | intros i Hi; apply Qlt_le_weak; by apply Hin].
    destruct (Qlt_le_dec (v_duration v) (inject_Z (Z.of_nat n * 900))) as [Hlt|Hle].
    + by rewrite py_min_gt.
    + rewrite py_min_le by exact Hle. by apply Qle_antisym.
  - by apply segment_durations_bounds.
Qed.

Lemma segment_durations_tile_witness :
  (0 < v_duration asset_2000)%Q
  /\ split_audio (Some asset_2000) (15 * 60) <> []
  /\ (py_sum 0%Q Qplus
        (segment_durations (v_duration asset_2000)
           (length (split_audio (Some asset_2000) (15 * 60))))
      == v_duration asset_2000)%Q
  /\ Forall (fun d => (0 < d)%Q /\ (d <= 900)%Q)
       (segment_durations (v_duration asset_2000)
          (length (split_audio (Some asset_2000) (15 * 60)))).
Proof.
  assert (Hne : split_audio (Some asset_2000) (15 * 60) <> [])
    by (vm_compute; intros Heq; discriminate Heq).
  split; [reflexivity|]. split; [exact Hne|].
  apply (segment_durations_tile asset_2000); [reflexivity | exact Hne].
Defined.

Lemma omap_nil_iff {A B} (f : A -> option B) (l : list A) :
  omap f l = [] <-> forall x, x ∈ l -> f x = None.
Proof.
  induction l as [|a l IH]; cbn.
  - split; [intros _ x Hx; by apply elem_of_nil in Hx|done].
  - destruct (f a) as [b|] eqn:Hfa.
    + split; [done|]. intros Hall. specialize (Hall a (list_elem_of_here _ _)). congruence.
    + rewrite IH. split.
      * intros Hall x Hx. apply elem_of_cons in Hx as [->|Hx]; auto.
      * intros Hall x Hx. apply Hall. by right.
Qed.

Lemma length_omap_le {A B} (f : A -> option B) (l : list A) :
  (length (omap f l) <= length l)%nat.
Proof. induction l as [|a l IH]; cbn; [done|]. destruct (f a); cbn; lia. Qed.

(** X7.  For a readable asset, [transcribe_video] returns [None] exactly when
    [split_audio] gave no audio file (the asset has no audio that can be
    written) or the transcription of every window failed; with at least one
    audio file, one answer is enough for a transcript.  For an asset that
    cannot be opened it returns [None]. *)
Theorem transcribe_video_none_iff (v : video)
    (service : nat -> option (@transcript Q)) (h : gmap loc (@word Q)) :
  ((transcribe_video (Some v) service h).1 = None
   <-> split_audio (Some v) (15 * 60) = []
       \/ forall i : nat,
            (i < length (split_audio (Some v) (15 * 60)))%nat -> service i = None)
  /\ transcribe_video None service h = (None, h).
Proof.
  split; [|reflexivity]. unfold transcribe_video.
  destruct (split_audio (Some v) (15 * 60)) as [|a l] eqn:Hsplit; [split; auto|].
  set (n := length (a :: l)). unfold transcribe_segments.
  assert (Hnil : omap service (seq 0 n) = []
                 <-> forall i : nat, (i < n)%nat -> service i = None).
  { rewrite omap_nil_iff. split.
    - intros Hall i Hi. apply Hall. apply elem_of_seq. lia.
    - intros Hall i Hi. apply Hall. apply elem_of_seq in Hi. lia. }
  destruct (omap service (seq 0 n)) as [|t ts] eqn:Hts.
  - split; [intros _; right; by apply Hnil | done].
  - destruct (merge_returns 0%Q Qplus (t :: ts) (segment_durations (v_duration v) n) h)
      as (merged & h' & Hm).
    { rewrite length_segment_durations, <- Hts.
      etrans; [apply length_omap_le|]. by rewrite length_seq. }
    rewrite Hm. cbn. split; [done|]. intros [Hempty|Hall]; [done|].
    apply Hnil in Hall. done.
Qed.

Lemma omap_seq_total {B} (f : nat -> option B) (n : nat) : forall a : nat,
  (forall i : nat, (i < n)%nat -> is_Some (f (a + i)%nat)) ->
  length (omap f (seq a n)) = n
  /\ forall i : nat, (i < n)%nat -> omap f (seq a n) !! i = f (a + i)%nat.
Proof.
  induction n as [|n IH]; intros a Hall; [split; [done|intros i Hi; lia]|].
  destruct (Hall 0%nat ltac:(lia)) as [b Hb]. rewrite Nat.add_0_r in Hb.
  destruct (IH (S a)) as [Hlen Hlook].
  { intros i Hi. replace (S a + i)%nat with (a + S i)%nat by lia. apply Hall. lia. }
  cbn [seq].
  change (omap f (a :: seq (S a) n))
    with (match f a with
          | Some y => y :: omap f (seq (S a) n)
          | None => omap f (seq (S a) n)
          end).
  rewrite Hb. split.
  - cbn. by rewrite Hlen.
  - intros [|i] Hi; cbn.
    + by rewrite Nat.add_0_r.
    + rewrite Hlook by lia. f_equal. lia.
Qed.

Lemma take_segment_durations (D : Q) (i n : nat) :
  (i <= n)%nat -> take i (segment_durations D n) = segment_durations D i.
Proof.
  intros Hi. unfold segment_durations. rewrite !map_fmap, <- fmap_take, take_seq.
  by rewrite Nat.min_l.
Qed.

(** X8.  For a readable asset of positive duration on which [split_audio]
    succeeded and whose windows are all transcribed, [transcribe_video]
    returns a transcript in which the segment [j] of window [i] has its start
    and end increased by [900 * i] seconds, the true start of its window,
    and keeps its text. *)
Theorem transcribe_video_all_windows (v : video)
    (service : nat -> option (@transcript Q)) (h : gmap loc (@word Q)) :
  (0 < v_duration v)%Q ->
  split_audio (Some v) (15 * 60) <> [] ->
  (forall i : nat, (i < length (split_audio (Some v) (15 * 60)))%nat -> is_Some (service i)) ->
  exists merged h',
    transcribe_video (Some v) service h = (Some merged, h')
    /\ forall (i : nat) c (j : nat) s,
         (i < length (split_audio (Some v) (15 * 60)))%nat ->
         service i = Some c -> segments_of c !! j = Some s ->
         exists s',
           s' ∈ segments_of merged
           /\ (seg_start s' == seg_start s + inject_Z (Z.of_nat i * 900))%Q
           /\ (seg_end s' == seg_end s + inject_Z (Z.of_nat i * 900))%Q
           /\ seg_text s' = seg_text s.
Proof.
  intros Hpos Hne Hall. unfold transcribe_video.
  destruct (split_audio_900 v Hpos Hne) as (n & Hn & H1 & Hlo & Hup).
  rewrite Hn in Hall |- *.
  destruct (split_audio (Some v) (15 * 60)) as [|a l] eqn:Hsplit; [cbn in Hn; lia|].
  rewrite Hn. unfold transcribe_segments.
  destruct (omap_seq_total service n 0) as [Hlen Hlook]; [exact Hall|].
  assert (Hoff : forall i : nat, (i < n)%nat ->
            (foldl Qplus 0 (take i (segment_durations (v_duration v) n))
             == inject_Z (Z.of_nat i * 900))%Q).
  { intros i Hi. rewrite take_segment_durations by lia.
    assert (Hle : (inject_Z (Z.of_nat i * 900) <= v_duration v)%Q).
    { apply Qlt_le_weak. eapply Qle_lt_trans; [|exact Hlo]. rewrite <- Zle_Qle. lia. }
    pose proof (segment_durations_sum (v_duration v) i) as Hsum.
    rewrite (py_min_le _ _ Hle) in Hsum. apply Hsum; [by apply Qlt_le_weak|].
    intros i' Hi'. apply Qlt_le_weak. eapply Qle_lt_trans; [|exact Hlo].
    rewrite <- Zle_Qle. lia. }
  destruct (omap service (seq 0 n)) as [|t0 [|t1 rest]] eqn:Hts.
  - cbn in Hlen. lia.
  - eexists _, _. split; [reflexivity|].
    intros i c j s Hi Hc Hj. cbn in Hlen. subst n.
    assert (i = 0%nat) as -> by lia.
    specialize (Hlook 0%nat ltac:(lia)). cbn in Hlook. rewrite Hc in Hlook.
    injection Hlook as ->. exists s. split; [by eapply list_elem_of_lookup_2|].
    change (inject_Z (Z.of_nat 0 * 900)) with 0%Q. repeat split; [ring|ring].
  - rewrite (merge_closed 0%Q Qplus t0 t1 rest)
      by (rewrite length_segment_durations; cbn in Hlen |- *; lia).
    eexists _, _. split; [reflexivity|].
    intros i c j s Hi Hc Hj. rewrite segments_of_some.
    pose proof (Hlook i Hi) as Hi'. cbn [Nat.add] in Hi'. rewrite Hc in Hi'.
    pose proof (loop_segments_lookup Qplus (t0 :: t1 :: rest)
                  (segment_durations (v_duration v) n) 0 0%Q i c j s) as Hs.
    rewrite length_segment_durations in Hs. specialize (Hs ltac:(lia) Hi' Hj).
    eexists. split; [by eapply list_elem_of_lookup_2|].
    cbn [new_segment seg_start seg_end seg_text]. rewrite Hoff by exact Hi.
    repeat split; reflexivity.
Qed.

(** ** The extraction loop: which files are written *)

Lemma reproject_wide (w h : Z) :
  0 < h -> 1080 <= w * 1920 / h -> reproject (w, h) = Ok (1080, 1920).
Proof.
  intros Hh Hwide.
  assert (Hw : 0 <= w).
  { destruct (Z.le_gt_cases 0 w) as [|Hneg]; [done|].
    assert (w * 1920 / h < 0) by (apply Z.div_lt_upper_bound; lia). lia. }
  unfold reproject, patched_resize. cbn [fst snd].
  destruct (h =? 0) eqn:Hz; [apply Z.eqb_eq in Hz; lia|].
  rewrite Z.quot_div_nonneg by lia. set (w' := w * 1920 / h) in *. cbn [fst].
  rewrite crop_center_size by lia. do 2 f_equal.
  unfold slice_length, slice_bound.
  destruct (Z.ltb_spec ((w' + 1080) ÷ 2) 0), (Z.ltb_spec ((w' - 1080) ÷ 2) 0);
    Z.to_euclidean_division_equations; lia.
Qed.

(** What a successful run of the loop body says about its candidate. *)
Lemma make_clip_Ok (v : video) (i : nat) (c : clip_info) (f : written_file) :
  make_clip v i c = Ok f ->
  exists s e size,
    timecodes c = [s; e]
    /\ reproject (v_w v, v_h v) = Ok size
    /\ (exists window, subclip (v_duration v) s e = Ok window)
    /\ v_write_videofile v i = true
    /\ f = VerticalClip i s e size.
Proof.
  unfold make_clip. intros Hmk.
  destruct (timecodes c) as [|s [|e [|? ?]]]; try discriminate Hmk.
  destruct (subclip (v_duration v) s e) as [window|?] eqn:Hsub; [|discriminate Hmk].
  destruct (reproject (v_w v, v_h v)) as [size|?] eqn:Hr; [|discriminate Hmk].
  destruct (v_write_videofile v i) eqn:Hw; [|discriminate Hmk].
  injection Hmk as <-. exists s, e, size.
  split; [reflexivity|]. split; [reflexivity|]. split; [by exists window|].
  split; reflexivity.
Qed.

(** What the loop has written is what it had, followed by one clip for each
    candidate of a prefix of the list, numbered from [i], each cut at the
    timecodes of its candidate. *)
Lemma clips_loop_written (v : video) (cs : list clip_info) :
  forall (i : nat) written,
  exists new,
    (clips_loop v i cs written).1 = written ++ new
    /\ (length new <= length cs)%nat
    /\ forall (k : nat) f, new !! k = Some f ->
         exists c s e size,
           cs !! k = Some c /\ timecodes c = [s; e]
           /\ reproject (v_w v, v_h v) = Ok size
           /\ f = VerticalClip (i + k) s e size.
Proof.
  induction cs as [|c cs IH]; intros i written.
  - exists []. cbn. rewrite app_nil_r. repeat split; [lia|]. intros k f Hk. done.
  - cbn [clips_loop]. destruct (make_clip v i c) as [f|e] eqn:Hmk.
    + destruct (IH (S i) (written ++ [f])) as (new & Heq & Hlen & Hnew).
      exists (f :: new). rewrite Heq, <- app_assoc. cbn. repeat split; [lia|].
      intros [|k] g Hk.
      * injection Hk as <-.
        destruct (make_clip_Ok v i c f Hmk) as (s & e & size & Htc & Hr & _ & _ & ->).
        exists c, s, e, size. by rewrite Nat.add_0_r.
      * destruct (Hnew k g Hk) as (c' & s & e & size & Hc & Htc & Hr & ->).
        exists c', s, e, size. repeat split; [done..|]. f_equal. lia.
    + exists []. cbn. rewrite app_nil_r. repeat split; [lia|]. intros k f Hk. done.
Qed.

(** The demo loop writes copies numbered consecutively from [i], for a
    prefix of the candidates. *)
Lemma demo_loop_written (v : video) (cs : list clip_info) :
  forall (i : nat) written,
  exists m : nat,
    (m <= length cs)%nat
    /\ demo_loop v i cs written = written ++ (DemoCopy <$> seq i m).
Proof.
  induction cs as [|c cs IH]; intros i written.
  - exists 0%nat. cbn. by rewrite app_nil_r.
  - cbn [demo_loop]. destruct (v_write_videofile v i).
    + destruct (IH (S i) (written ++ [DemoCopy i])) as (m & Hm & ->).
      exists (S m). split; [cbn; lia|]. by rewrite <- app_assoc.
    + exists 0%nat. cbn. split; [lia|]. by rewrite app_nil_r.
Qed.

(** X9.  In both modes and whatever happens inside, the file written in
    position [k] carries the number [k + 1] and there is a candidate in
    position [k]; outside demo mode it is the vertical clip cut at the two
    timecodes of that candidate, with the reprojected size of the source
    frame.  So no clip is written twice, out of order or for a candidate
    that is not in the list, and there are never more files than
    candidates. *)
Theorem create_vertical_clips_numbering (DEMO_MODE : bool) (input_file : option video)
    (viral_clips : list clip_info) (k : nat) (f : written_file) :
  create_vertical_clips DEMO_MODE input_file viral_clips !! k = Some f ->
  file_number f = S k
  /\ (k < length viral_clips)%nat
  /\ (DEMO_MODE = false ->
      exists v c s e size,
        input_file = Some v
        /\ viral_clips !! k = Some c /\ timecodes c = [s; e]
        /\ reproject (v_w v, v_h v) = Ok size
        /\ f = VerticalClip (S k) s e size).
Proof.
  unfold create_vertical_clips. intros Hk.
  destruct input_file as [v|]; [|done]. destruct DEMO_MODE.
  - destruct (demo_loop_written v viral_clips 1 []) as (m & Hm & Heq).
    rewrite Heq in Hk. cbn [app] in Hk. rewrite list_lookup_fmap in Hk.
    destruct (seq 1 m !! k) as [i|] eqn:Hi; [|done].
    injection Hk as <-. apply lookup_seq in Hi as [-> Hlt].
    split; [done|]. split; [lia|done].
  - destruct (clips_loop_written v viral_clips 1 []) as (new & Heq & Hlen & Hnew).
    rewrite Heq in Hk. cbn in Hk.
    destruct (Hnew k f Hk) as (c & s & e & size & Hc & Htc & Hr & ->).
    split; [done|]. split; [by eapply lookup_lt_Some|].
    intros _. by exists v, c, s, e, size.
Qed.

(** The loop on candidates that all have two timecodes with a start inside
    the asset, for a source wide enough and writes that succeed. *)
Lemma clips_loop_all (v : video) (cs : list clip_info) :
  0 < v_h v -> 1080 <= v_w v * 1920 / v_h v ->
  Forall (fun c => exists s e, timecodes c = [s; e]
                     /\ (0 <= s)%Q /\ (s <= v_duration v)%Q) cs ->
  forall (i : nat) written,
    (forall k : nat, (k < length cs)%nat -> v_write_videofile v (i + k) = true) ->
    length (clips_loop v i cs written).1 = (length written + length cs)%nat.
Proof.
  intros Hh Hwide Hall. induction Hall as [|c cs Hc Hall IH]; intros i written Hwrite.
  - cbn. lia.
  - cbn [clips_loop]. unfold make_clip.
    destruct Hc as (s & e & -> & H0 & H1).
    destruct (subclip_inside (v_duration v) s e H0 H1) as [window ->].
    rewrite reproject_wide by done.
    pose proof (Hwrite 0%nat ltac:(cbn; lia)) as Hw0. rewrite Nat.add_0_r in Hw0.
    rewrite Hw0, IH.
    + rewrite length_app. cbn. lia.
    + intros k Hk. replace (S i + k)%nat with (i + S k)%nat by lia.
      apply Hwrite. cbn. lia.
Qed.

(** X10.  Outside demo mode, for a readable source whose scaled width is at
    least 1080, when every candidate has exactly two timecodes with a start
    between 0 and the duration of the asset and every output file can be
    written, every candidate gets its clip: there are as many files as
    candidates, the file in position [k] is numbered [k + 1], is cut at the
    timecodes of candidate [k] and is 1080 by 1920. *)
Theorem create_vertical_clips_all (v : video) (viral_clips : list clip_info) :
  0 < v_h v -> 1080 <= v_w v * 1920 / v_h v ->
  Forall (fun c => exists s e, timecodes c = [s; e]
                     /\ (0 <= s)%Q /\ (s <= v_duration v)%Q) viral_clips ->
  (forall i : nat, (1 <= i <= length viral_clips)%nat -> v_write_videofile v i = true) ->
  length (create_vertical_clips false (Some v) viral_clips) = length viral_clips
  /\ forall (k : nat) c, viral_clips !! k = Some c ->
       exists s e,
         timecodes c = [s; e]
         /\ create_vertical_clips false (Some v) viral_clips !! k
            = Some (VerticalClip (S k) s e (1080, 1920)).
Proof.
  intros Hh Hwide Hall Hwrite. unfold create_vertical_clips.
  pose proof (clips_loop_all v viral_clips Hh Hwide Hall 1 []) as Hlen.
  cbn [length Nat.add] in Hlen.
  specialize (Hlen ltac:(intros k Hk; apply Hwrite; lia)).
  split; [exact Hlen|]. intros k c Hc.
  destruct (clips_loop_written v viral_clips 1 []) as (new & Heq & _ & Hnew).
  rewrite Heq in Hlen |- *. cbn in Hlen |- *.
  destruct (lookup_lt_is_Some_2 new k) as [f Hf];
    [rewrite Hlen; by eapply lookup_lt_Some|].
  destruct (Hnew k f Hf) as (c' & s & e & size & Hc' & Htc & Hr & ->).
  rewrite Hc in Hc'. injection Hc' as <-. exists s, e. split; [done|].
  rewrite Hf. rewrite reproject_wide in Hr by done. by injection Hr as <-.
Qed.

(** X11.  For a frame of positive height and a width that scales to at
    least one column, [patched_resize] with the height 1920 returns the
    width [w'] that keeps the aspect ratio rounded down,
    [w' * h <= w * 1920 < (w' + 1) * h], and the reprojection returns a frame
    of height 1920 whose width is at most 1080 and at most [w'], and exactly
    1080 when [w'] is at least 1080. *)
Theorem reproject_never_widens (w h : Z) :
  0 < h -> h <= w * 1920 ->
  exists w',
    patched_resize (w, h) None (Some 1920) None = Ok (w', 1920)
    /\ w' * h <= w * 1920 < (w' + 1) * h
    /\ exists ww,
         reproject (w, h) = Ok (ww, 1920)
         /\ 0 <= ww /\ ww <= 1080 /\ ww <= w'
         /\ (1080 <= w' -> ww = 1080).
Proof.
  intros Hh Hw1.
  assert (Hw : 0 <= w) by lia.
  assert (Hw' : 0 < w * 1920 / h) by (apply Z.div_str_pos; lia).
  exists (w * 1920 / h).
  assert (Hres : patched_resize (w, h) None (Some 1920) None = Ok (w * 1920 / h, 1920)).
  { unfold patched_resize. cbn [fst snd].
    destruct (h =? 0) eqn:Hz; [apply Z.eqb_eq in Hz; lia|].
    by rewrite Z.quot_div_nonneg by lia. }
  split; [exact Hres|]. split.
  - pose proof (Z.div_mod (w * 1920) h ltac:(lia)).
    pose proof (Z.mod_pos_bound (w * 1920) h Hh). lia.
  - unfold reproject. rewrite Hres. set (w' := w * 1920 / h) in *. cbn [fst].
    rewrite crop_center_size by lia. eexists. split; [reflexivity|].
    unfold slice_length, slice_bound.
    destruct (Z.ltb_spec ((w' + 1080) ÷ 2) 0), (Z.ltb_spec ((w' - 1080) ÷ 2) 0);
      Z.to_euclidean_division_equations; lia.
Qed.

Lemma reproject_never_widens_witness :
  0 < 1080 /\ 1080 <= 1920 * 1920
  /\ exists w',
       patched_resize (1920, 1080) None (Some 1920) None = Ok (w', 1920)
       /\ w' * 1080 <= 1920 * 1920 < (w' + 1) * 1080
       /\ 1080 <= w'
       /\ reproject (1920, 1080) = Ok (1080, 1920).
Proof.
  split; [lia|]. split; [lia|].
  destruct (reproject_never_widens 1920 1080) as (w' & Hres & Hratio & ww & Hr & _ & _ & _ & Hwide);
    [lia | lia |].
  exists w'. split; [exact Hres|]. split; [exact Hratio|].
  assert (Hw' : 1080 <= w') by lia.
  split; [exact Hw'|]. rewrite Hr, (Hwide Hw'). reflexivity.
Defined.

(** ** process_folder: which names are processed *)

Lemma py_lower_app (a b : string) :
  py_lower (a ++ b)%string = (py_lower a ++ py_lower b)%string.
Proof.
  induction a as [|x a IH]; [done|].
  change (String (lower_ascii x) (py_lower (a ++ b)%string)
          = String (lower_ascii x) (py_lower a ++ py_lower b)%string).
  by rewrite IH.
Qed.

Lemma py_lower_split (a b : string) : forall s : string,
  py_lower s = (a ++ b)%string ->
  exists s1 s2, s = (s1 ++ s2)%string /\ py_lower s1 = a /\ py_lower s2 = b.
Proof.
  induction a as [|x a IH]; intros s Hs.
  - exists ""%string, s. done.
  - destruct s as [|c s]; [discriminate Hs|].
    change (String (lower_ascii c) (py_lower s) = String x (a ++ b)%string) in Hs.
    injection Hs as Hc Hs. destruct (IH s Hs) as (s1 & s2 & -> & H1 & H2).
    exists (String c s1), s2. repeat split; [|done].
    cbn [py_lower]. by rewrite Hc, H1.
Qed.

Lemma endswith_iff (s suffix : string) :
  endswith s suffix = true <-> exists pre, s = (pre ++ suffix)%string.
Proof.
  split.
  - induction s as [|c s IH]; cbn [endswith]; intros Hend.
    + destruct (String.eqb "" suffix) eqn:Heq; [|discriminate Hend].
      apply String.eqb_eq in Heq as <-. by exists ""%string.
    + destruct (String.eqb (String c s) suffix) eqn:Heq.
      * apply String.eqb_eq in Heq as <-. by exists ""%string.
      * destruct (IH Hend) as [pre ->]. by exists (String c pre).
  - intros [pre ->]. induction pre as [|c pre IH].
    + change ("" ++ suffix)%string with suffix.
      destruct suffix; cbn [endswith]; by rewrite String.eqb_refl.
    + change (String c pre ++ suffix)%string with (String c (pre ++ suffix)%string).
      cbn [endswith]. rewrite IH. by destruct (String.eqb _ suffix).
Qed.

Lemma is_video_name_iff (name : string) :
  is_video_name name = true
  <-> exists stem ext,
        name = (stem ++ ext)%string
        /\ (py_lower ext = ".mov"%string \/ py_lower ext = ".mp4"%string).
Proof.
  unfold is_video_name. rewrite orb_true_iff, !endswith_iff. split.
  - intros [[pre Hpre]|[pre Hpre]];
      destruct (py_lower_split _ _ _ Hpre) as (s1 & s2 & -> & _ & H2);
      exists s1, s2; auto.
  - intros (stem & ext & -> & [Hext|Hext]); rewrite py_lower_app, Hext; eauto.
Qed.

(** The characters that [str.lower] sends to the characters of the two
    endings. *)
Lemma lower_ascii_inv (c : Ascii.ascii) :
  (lower_ascii c = "."%char -> c = "."%char)
  /\ (lower_ascii c = "4"%char -> c = "4"%char)
  /\ (lower_ascii c = "m"%char -> c = "m"%char \/ c = "M"%char)
  /\ (lower_ascii c = "o"%char -> c = "o"%char \/ c = "O"%char)
  /\ (lower_ascii c = "v"%char -> c = "v"%char \/ c = "V"%char)
  /\ (lower_ascii c = "p"%char -> c = "p"%char \/ c = "P"%char).
Proof.
  destruct c as [[] [] [] [] [] [] [] []]; vm_compute;
    repeat split; intros Heq; try discriminate Heq; auto.
Qed.

(** The endings whose lower-case form is [.mov] or [.mp4], letter by
    letter. *)
Lemma py_lower_ending (ext : string) :
  py_lower ext = ".mov"%string \/ py_lower ext = ".mp4"%string
  <-> exists c1 c2 c3 : Ascii.ascii,
        ext = String "."%char (String c1 (String c2 (String c3 "")))
        /\ (c1 = "m"%char \/ c1 = "M"%char)
        /\ ((c2 = "o"%char \/ c2 = "O"%char) /\ (c3 = "v"%char \/ c3 = "V"%char)
            \/ (c2 = "p"%char \/ c2 = "P"%char) /\ c3 = "4"%char).
Proof.
  split.
  - intros Hext.
    destruct ext as [|c0 [|c1 [|c2 [|c3 [|c4 rest]]]]];
      try (destruct Hext as [Hext|Hext]; discriminate Hext).
    cbn [py_lower] in Hext.
    destruct (lower_ascii_inv c0) as (Hdot & _).
    destruct (lower_ascii_inv c1) as (_ & _ & Hm & _).
    destruct (lower_ascii_inv c2) as (_ & _ & _ & Ho & _ & Hp).
    destruct (lower_ascii_inv c3) as (_ & H4 & _ & _ & Hv & _).
    exists c1, c2, c3.
    destruct Hext as [Hext|Hext]; injection Hext as E0 E1 E2 E3;
      rewrite (Hdot E0); (split; [reflexivity|]); (split; [by apply Hm|]).
    + left. split; [by apply Ho|by apply Hv].
    + right. split; [by apply Hp|by apply H4].
  - intros (c1 & c2 & c3 & -> & H1 & H23).
    destruct H1 as [-> | ->];
      destruct H23 as [[[-> | ->] [-> | ->]] | [[-> | ->] ->]];
      vm_compute; auto.
Qed.

(** X13.  In a folder, the names handed on for processing are exactly the
    listed names that end in a dot followed by [mov] or [mp4] with each
    letter in upper or lower case: [clip.mp4], [CLIP.MP4] and [a.MoV] are
    selected, [clip.mp4.txt] and [clipmp4] are not. *)
Theorem process_folder_selects (files : list string) (name : string) :
  name ∈ process_folder (IsFolder files)
  <-> name ∈ files
      /\ exists (stem : string) (c1 c2 c3 : Ascii.ascii),
           name = (stem ++ String "."%char (String c1 (String c2 (String c3 ""))))%string
           /\ (c1 = "m"%char \/ c1 = "M"%char)
           /\ ((c2 = "o"%char \/ c2 = "O"%char) /\ (c3 = "v"%char \/ c3 = "V"%char)
               \/ (c2 = "p"%char \/ c2 = "P"%char) /\ c3 = "4"%char).
Proof.
  cbn [process_folder]. rewrite !list_elem_of_In, filter_In, is_video_name_iff.
  split.
  - intros [Hin (stem & ext & -> & Hext)]. split; [exact Hin|].
    apply py_lower_ending in Hext as (c1 & c2 & c3 & -> & Hc). by exists stem, c1, c2, c3.
  - intros [Hin (stem & c1 & c2 & c3 & -> & Hc)]. split; [exact Hin|].
    eexists stem, _. split; [reflexivity|]. apply py_lower_ending. by exists c1, c2, c3.
Qed.

(** The selection on a listing with mixed cases and near misses. *)
Example process_folder_mixed_case :
  process_folder (IsFolder ["clip.mp4"; "CLIP.MP4"; "a.MoV"; "clip.mp4.txt";
                            "clipmp4"; "notes.txt"; ".mov"])%string
  = ["clip.mp4"; "CLIP.MP4"; "a.MoV"; ".mov"]%string.
Proof. vm_compute. reflexivity. Qed.

(** ** The further properties at concrete inputs *)

Lemma merge_leaves_other_words_witness :
  (5%nat ∉ all_words [chunk0; chunk1])
  /\ (merge_transcript_segments 0%Q Qplus [chunk0; chunk1] [900%Q; 300%Q] scenario_heap).2
       !! 5%nat = scenario_heap !! 5%nat
  /\ dom (merge_transcript_segments 0%Q Qplus [chunk0; chunk1] [900%Q; 300%Q] scenario_heap).2
     = dom scenario_heap.
Proof.
  assert (Hnot : 5%nat ∉ all_words [chunk0; chunk1]).
  { cbn. rewrite !not_elem_of_cons. repeat split; [lia..|apply not_elem_of_nil]. }
  split; [exact Hnot|].
  exact (merge_leaves_other_words 0%Q Qplus [chunk0; chunk1] [900%Q; 300%Q]
           scenario_heap 5%nat Hnot).
Defined.

Lemma merge_too_few_lengths_witness :
  (merge_transcript_segments 0%Q Qplus [chunk0; chunk1] [900%Q] scenario_heap).1
    = Raise IndexError
  /\ forall (i : nat) c (l : loc) w,
       [chunk0; chunk1] !! i = Some c -> l ∈ words_of (segments_of c) ->
       scenario_heap !! l = Some w ->
       exists w',
         (merge_transcript_segments 0%Q Qplus [chunk0; chunk1] [900%Q] scenario_heap).2
           !! l = Some w'
         /\ word_text w' = word_text w
         /\ word_start w'
            = (if decide (i <= length [900%Q])%nat
               then Qplus (word_start w) (offset_of 0%Q Qplus [900%Q] i) else word_start w)
         /\ word_end w'
            = (if decide (i <= length [900%Q])%nat
               then Qplus (word_end w) (offset_of 0%Q Qplus [900%Q] i) else word_end w).
Proof.
  apply (merge_too_few_lengths 0%Q Qplus [chunk0; chunk1] [900%Q] scenario_heap).
  - cbn. lia.
  - cbn. lia.
  - exact scenario_words_NoDup.
Defined.

Lemma merge_keeps_segments_in_order_witness :
  exists merged h',
    merge_transcript_segments 0%Q Qplus [chunk0; chunk1] [900%Q; 300%Q] scenario_heap
    = (Ok merged, h')
    /\ seg_text <$> segments_of merged
       = seg_text <$> concat (segments_of <$> [chunk0; chunk1])
    /\ seg_words <$> segments_of merged
       = seg_words <$> concat (segments_of <$> [chunk0; chunk1]).
Proof.
  apply (merge_keeps_segments_in_order 0%Q Qplus [chunk0; chunk1] [900%Q; 300%Q]
           scenario_heap).
  cbn. lia.
Defined.

Lemma transcribe_video_all_windows_witness :
  exists merged h',
    transcribe_video (Some asset_2000) service_all_windows scenario_heap = (Some merged, h')
    /\ forall (i : nat) c (j : nat) s,
         (i < length (split_audio (Some asset_2000) (15 * 60)))%nat ->
         service_all_windows i = Some c -> segments_of c !! j = Some s ->
         exists s',
           s' ∈ segments_of merged
           /\ (seg_start s' == seg_start s + inject_Z (Z.of_nat i * 900))%Q
           /\ (seg_end s' == seg_end s + inject_Z (Z.of_nat i * 900))%Q
           /\ seg_text s' = seg_text s.
Proof.
  apply (transcribe_video_all_windows asset_2000 service_all_windows scenario_heap).
  - reflexivity.
  - vm_compute. intros Heq. discriminate Heq.
  - intros i _. destruct i; cbn; eauto.
Defined.

Lemma create_vertical_clips_numbering_witness :
  create_vertical_clips false (Some asset_1200) [candidate [0%Q; 40%Q] 10] !! 0%nat
    = Some (VerticalClip 1 0%Q 40%Q (1080, 1920))
  /\ file_number (VerticalClip 1 0%Q 40%Q (1080, 1920)) = 1%nat
  /\ (0 < length [candidate [0%Q; 40%Q] 10])%nat
  /\ (false = false ->
      exists v c s e size,
        Some asset_1200 = Some v
        /\ [candidate [0%Q; 40%Q] 10] !! 0%nat = Some c /\ timecodes c = [s; e]
        /\ reproject (v_w v, v_h v) = Ok size
        /\ VerticalClip 1 0%Q 40%Q (1080, 1920) = VerticalClip 1 s e size).
Proof.
  assert (Hk : create_vertical_clips false (Some asset_1200) [candidate [0%Q; 40%Q] 10]
                 !! 0%nat = Some (VerticalClip 1 0%Q 40%Q (1080, 1920)))
    by (vm_compute; reflexivity).
  split; [exact Hk|].
  exact (create_vertical_clips_numbering false (Some asset_1200)
           [candidate [0%Q; 40%Q] 10] 0 _ Hk).
Defined.

Lemma create_vertical_clips_all_witness :
  length (create_vertical_clips false (Some asset_1200)
            [candidate [0%Q; 40%Q] 10; candidate [50%Q; 95%Q] 10])
    = length [candidate [0%Q; 40%Q] 10; candidate [50%Q; 95%Q] 10]
  /\ forall (k : nat) c,
       [candidate [0%Q; 40%Q] 10; candidate [50%Q; 95%Q] 10] !! k = Some c ->
       exists s e,
         timecodes c = [s; e]
         /\ create_vertical_clips false (Some asset_1200)
              [candidate [0%Q; 40%Q] 10; candidate [50%Q; 95%Q] 10] !! k
            = Some (VerticalClip (S k) s e (1080, 1920)).
Proof.
  apply (create_vertical_clips_all asset_1200
           [candidate [0%Q; 40%Q] 10; candidate [50%Q; 95%Q] 10]).
  - reflexivity.
  - apply Z.leb_le. reflexivity.
  - repeat constructor.
    + exists 0%Q, 40%Q. repeat split; discriminate.
    + exists 50%Q, 95%Q. repeat split; discriminate.
  - intros i _. reflexivity.
Defined.

(** ** process_video when no window is transcribed *)

Lemma transcribe_video_all_fail (v : video)
    (service : nat -> option (@transcript Q)) (h : gmap loc (@word Q)) :
  (forall i : nat, (i < length (split_audio (Some v) (15 * 60)))%nat -> service i = None) ->
  transcribe_video (Some v) service h = (None, h).
Proof.
  intros Hall. unfold transcribe_video.
  destruct (split_audio (Some v) (15 * 60)) as [|a l]; [done|].
  unfold transcribe_segments.
  assert (Hnil : omap service (seq 0 (length (a :: l))) = []).
  { apply omap_nil_iff. intros i Hi. apply Hall. apply elem_of_seq in Hi. lia. }
  by rewrite Hnil.
Qed.

(** X14.  When the transcription of every window of a readable asset fails,
    [process_video] writes nothing, neither clip nor metadata, whatever the
    reasoning service would have answered, and the store is as it was. *)
Theorem process_video_all_windows_fail (v : video)
    (service : nat -> option (@transcript Q))
    (reasoning : @transcript Q -> chat_response) (h : gmap loc (@word Q)) :
  (forall i : nat, (i < length (split_audio (Some v) (15 * 60)))%nat -> service i = None) ->
  process_video (Some v) service reasoning h = (no_output, h).
Proof.
  intros Hall. unfold process_video.
  by rewrite (transcribe_video_all_fail v service h Hall).
Qed.

Lemma process_video_all_windows_fail_witness :
  process_video (Some asset_2000) (fun _ => None)
    (fun _ => Content (Clips [candidate [0%Q; 40%Q] 10])) scenario_heap
  = (no_output, scenario_heap).
Proof.
  apply (process_video_all_windows_fail asset_2000 (fun _ => None)
           (fun _ => Content (Clips [candidate [0%Q; 40%Q] 10])) scenario_heap).
  intros i _. reflexivity.
Defined.
